(** * Quotely server core: a shallow embedding of [src/server/server.js]

    JavaScript strings are modelled as [list ascii] (one element per code
    unit), JS numbers used as integers as [nat] or [Z], the fractional
    arithmetic of the relevance score as [Q], a JavaScript [Map] as an
    association list kept in insertion order, and [Date.now()] as an explicit
    clock argument read once per operation.  External collaborators (Fuse.js,
    cheerio, the OCR backend) are section variables. *)

From Stdlib Require Import List Bool Arith Lia ZArith QArith Ascii String.
From Stdlib Require Import Sorting.Sorted Sorting.Permutation.
From Stdlib Require Import Lqa.
Import ListNotations.

Open Scope nat_scope.

Open Scope list_scope.

Definition str := list ascii.

Definition lit (s : string) : str := list_ascii_of_string s.

(** JS truthiness of a string: only the empty string is falsy. *)
Definition str_truthy (s : str) : bool :=
  match s with [] => false | _ => true end.

(** ** JavaScript [Map] keyed by any value, insertion ordered *)
Module JSMap.
Section Map.
Context {K V : Type} (keq : K -> K -> bool).

Definition t := list (K * V).

Fixpoint get (k : K) (m : t) : option V :=
match m with
| [] => None
| (k', v) :: m' => if keq k k' then Some v else get k m'
end.

Definition has (k : K) (m : t) : bool :=
match get k m with Some _ => true | None => false end.

(** [Map.prototype.set]: an existing key keeps its position, a new key is
  appended at the end. *)
Fixpoint set (k : K) (v : V) (m : t) : t :=
match m with
| [] => [(k, v)]
| (k', v') :: m' => if keq k k' then (k', v) :: m' else (k', v') :: set k v m'
end.

Fixpoint delete (k : K) (m : t) : t :=
match m with
| [] => []
| (k', v') :: m' => if keq k k' then m' else (k', v') :: delete k m'
end.

Definition size (m : t) : nat := List.length m.
End Map.
End JSMap.

(** ** The PDF content cache ([cachePdfContent], [getCachedPdfContent]) *)
Module Cache.

(** Cache keys are whatever the handlers pass: a URL string or [undefined]
    (the OCR path caches under [url], which is absent for local files). *)
Definition key := option str.

Definition key_eqb (a b : key) : bool :=
  match a, b with
  | None, None => true
  | Some x, Some y => if list_eq_dec ascii_dec x y then true else false
  | _, _ => false
  end.

(** JS truthiness of a key ([if (oldestKey)]). *)
Definition key_truthy (k : key) : bool :=
  match k with None => false | Some s => str_truthy s end.

Record entry := mkEntry { content : str; isOCR : bool; timestamp : Z }.

Definition cache := JSMap.t (K := key) (V := entry).

Definition PDF_CACHE_DURATION : Z := 5 * 60 * 1000.
Definition MAX_CACHE_SIZE : nat := 15.

Definition expired (now : Z) (e : entry) : bool :=
  (now - timestamp e >? PDF_CACHE_DURATION)%Z.

(** The sweep [for (const [key, value] of pdfCache.entries()) if (...)
    pdfCache.delete(key)]: deleting the visited entry does not disturb the
    iteration, so it keeps exactly the unexpired entries. *)
Definition sweep (now : Z) (c : cache) : cache :=
  filter (fun kv => negb (expired now (snd kv))) c.

(** The scan for the oldest entry: [oldestKey = null],
    [oldestTime = Date.now()], and an entry replaces the candidate only if
    its timestamp is strictly smaller.  [None] is [null]. *)
Fixpoint oldest_scan (c : cache) (oldestKey : option key) (oldestTime : Z)
  : option key :=
  match c with
  | [] => oldestKey
  | (k, v) :: c' =>
      if (timestamp v <? oldestTime)%Z
      then oldest_scan c' (Some k) (timestamp v)
      else oldest_scan c' oldestKey oldestTime
  end.

Definition cachePdfContent (now : Z) (url : key) (cont : str) (ocr : bool)
    (c : cache) : cache :=
  let c1 := sweep now c in
  let c2 :=
    if (MAX_CACHE_SIZE <=? JSMap.size c1) && negb (JSMap.has key_eqb url c1)
    then match oldest_scan c1 None now with
         | Some k => if key_truthy k then JSMap.delete key_eqb k c1 else c1
         | None => c1
         end
    else c1 in
  JSMap.set key_eqb url (mkEntry cont ocr now) c2.

(** Returns the new cache and the looked-up object ([null] is [None]). *)
Definition getCachedPdfContent (now : Z) (url : key) (c : cache)
    : cache * option entry :=
  match JSMap.get key_eqb url c with
  | None => (c, None)
  | Some cached =>
      if expired now cached
      then (JSMap.delete key_eqb url c, None)
      else
        let cached' := mkEntry (content cached) (isOCR cached) now in
        (JSMap.set key_eqb url cached' c, Some cached')
  end.

End Cache.

(** ** Segment metadata and the segment endpoint *)
Module Segments.
Import Cache.

Definition SEGMENT_SIZE : N := 50000.

Record segment := mkSegment { seg_index : N; seg_start : N; seg_end : N }.

(** [for (let i = 0; i < L; i += SEGMENT_SIZE) segments.push({index:
    segments.length, start: i, end: Math.min(i + SEGMENT_SIZE, L)})];
    [idx] is [segments.length].  The loop body runs at most
    [L / SEGMENT_SIZE + 1] times, which is the fuel [segments] supplies. *)
Fixpoint segments_from (fuel : nat) (L i idx : N) : list segment :=
  match fuel with
  | O => []
  | S fuel' =>
      if (i <? L)%N
      then mkSegment idx i (N.min (i + SEGMENT_SIZE) L)
             :: segments_from fuel' L (i + SEGMENT_SIZE) (N.succ idx)
      else []
  end.

Definition segments (L : N) : list segment :=
  segments_from (S (N.to_nat (L / SEGMENT_SIZE))) L 0 0.

(** [String.prototype.substring(a, b)]: both bounds clamped to
    [[0, length]], swapped when [a > b]. *)
Definition js_substring (s : str) (a b : N) : str :=
  let len := N.of_nat (List.length s) in
  let a' := N.min a len in
  let b' := N.min b len in
  let lo := N.min a' b' in
  let hi := N.max a' b' in
  firstn (N.to_nat (hi - lo)) (skipn (N.to_nat lo) s).

Inductive segment_response :=
| SegBadRequest
| SegNotFound
| SegOk (segContent : str) (segmentIndex start end_ : N) (ocr : bool).

(** The [/api/get-pdf-segment] handler; [segmentIndex = None] is
    [undefined]. *)
Definition get_pdf_segment (now : Z) (pdfUrl : key) (segmentIndex : option N)
    (c : cache) : cache * segment_response :=
  match segmentIndex with
  | None => (c, SegBadRequest)
  | Some idx =>
      if negb (key_truthy pdfUrl) then (c, SegBadRequest) else
      let (c1, cached) := getCachedPdfContent now pdfUrl c in
      match cached with
      | None => (c1, SegNotFound)
      | Some e =>
          let start := (idx * SEGMENT_SIZE)%N in
          let end_ := N.min (start + SEGMENT_SIZE) (N.of_nat (List.length (content e))) in
          (c1, SegOk (js_substring (content e) start end_) idx start end_ (isOCR e))
      end
  end.

(** A client fetching the segments [idxs] one after the other. *)
Fixpoint fetch_segments (now : Z) (k : key) (idxs : list N) (c : cache)
    : cache * list segment_response :=
  match idxs with
  | [] => (c, [])
  | i :: is =>
      let (c1, r) := get_pdf_segment now k (Some i) c in
      let (c2, rs) := fetch_segments now k is c1 in
      (c2, r :: rs)
  end.
End Segments.

(** ** The [/api/extract-pdf] handler after [pdf2json] has parsed the file *)
Module Extract.
Import Cache Segments.

Definition Qltb (x y : Q) : bool := negb (Qle_bool y x).

Definition is_alnum (ch : ascii) : bool :=
  let n := nat_of_ascii ch in
  ((48 <=? n) && (n <=? 57)) || ((65 <=? n) && (n <=? 90))
  || ((97 <=? n) && (n <=? 122)).

(** [`local_${title}_${extractedText.substring(0, 100).replace(/[^a-zA-Z0-9]/g, '')}`];
    an absent title prints as [undefined]. *)
Definition local_key (title : option str) (text : str) : str :=
  lit "local_" ++ match title with Some t => t | None => lit "undefined" end
  ++ lit "_" ++ filter is_alnum (js_substring text 0 100).

Definition isScannedPDF (pageCount : nat) (extractedText : str) : bool :=
  (0 <? pageCount) &&
  Qltb (inject_Z (Z.of_nat (List.length extractedText)) / inject_Z (Z.of_nat pageCount))
       500.

Inductive extract_response :=
| ScannedTooLarge (pageCount : nat) (extractedText : str)
| Segmented (totalLength : N) (segs : list segment) (cacheKey : key) (ocr : bool)
| Content (text : str) (cacheKey : key) (ocr : bool).

(** The scanned-PDF branch: [visionConfigured] is [visionClient] being set;
    [runOCR pageCount] is [extractPDFTextOCR(pdfBuffer, pageCount)], [None]
    when it throws.  [inl] continues with the cache, the text and
    [ocrWasUsed]; [inr] is the early [resolve] of the too-large error. *)
Definition ocr_stage (visionConfigured : bool) (runOCR : nat -> option str)
    (now : Z) (url : key) (extractedText : str) (pageCount : nat) (c : cache)
    : (cache * str * bool) + (cache * extract_response) :=
  if isScannedPDF pageCount extractedText && visionConfigured then
    let (c1, cachedData) := getCachedPdfContent now url c in
    (* [if (cachedData && cachedData.isOCR)] *)
    let ocrHit := match cachedData with
                  | Some e => if isOCR e then Some e else None
                  | None => None
                  end in
    match ocrHit with
    | Some e => inl (c1, content e, true)
    | None =>
        if 30 <? pageCount then inr (c1, ScannedTooLarge pageCount extractedText) else
        match runOCR pageCount with
        | Some t => inl (cachePdfContent now url t true c1, t, true)
        | None => inl (c1, extractedText, false)
        end
    end
  else inl (c, extractedText, false).

(** The rest of the [pdfParser_dataReady] callback. *)
Definition extract_pdf (visionConfigured : bool) (runOCR : nat -> option str)
    (now : Z) (url : key) (title : option str) (extractedText : str)
    (pageCount : nat) (c : cache) : cache * extract_response :=
  match ocr_stage visionConfigured runOCR now url extractedText pageCount c with
  | inr (c1, resp) => (c1, resp)
  | inl (c2, text, ocrWasUsed) =>
      let cacheKey := if key_truthy url then url else Some (local_key title text) in
      let L := N.of_nat (List.length text) in
      if (SEGMENT_SIZE <? L)%N
      then (cachePdfContent now cacheKey text ocrWasUsed c2,
            Segmented L (segments L) cacheKey ocrWasUsed)
      else (c2, Content text cacheKey ocrWasUsed)
  end.
End Extract.

(** ** Whitespace handling shared by the normalizer and the OCR clean-up *)
Module Text.
(** JavaScript [\s] restricted to one-byte code units: TAB, LF, VT, FF, CR,
    SPACE and NO-BREAK SPACE. *)
Definition is_ws (ch : ascii) : bool :=
  let n := nat_of_ascii ch in
  ((9 <=? n) && (n <=? 13)) || (n =? 32) || (n =? 160).

Definition is_newline (ch : ascii) : bool := nat_of_ascii ch =? 10.

(** [s.replace(/p+/g, ' ')] for a one-character class [p]: every maximal
    run of matching characters becomes one space. *)
Fixpoint replace_runs (p : ascii -> bool) (in_run : bool) (s : str) : str :=
  match s with
  | [] => []
  | ch :: rest =>
      if p ch
      then if in_run then replace_runs p true rest
           else " "%char :: replace_runs p true rest
      else ch :: replace_runs p false rest
  end.

Definition collapse_ws (s : str) : str := replace_runs is_ws false s.

Fixpoint drop_ws (s : str) : str :=
  match s with
  | ch :: rest => if is_ws ch then drop_ws rest else s
  | [] => []
  end.

(** [String.prototype.trim] *)
Definition trim (s : str) : str := rev (drop_ws (rev (drop_ws s))).

(** [Array.prototype.join(sep)] *)
Fixpoint join (sep : str) (l : list str) : str :=
  match l with
  | [] => []
  | [x] => x
  | x :: l' => x ++ sep ++ join sep l'
  end.
End Text.

(** ** [extractPDFTextOCR]: the OCR fan-out over page groups *)
Module OCR.
Import Text.

Definition PAGES_PER_REQUEST : nat := 5.

(** [for (let p = i; p <= endPage; p++) pageRange.push(p)] *)
Definition page_range (i endPage : nat) : list nat := seq i (S endPage - i).

(** [for (let i = 1; i <= totalPages; i += PAGES_PER_REQUEST)]; the loop
    body runs at most [totalPages] times, the fuel [chunks] supplies. *)
Fixpoint chunks_from (fuel i totalPages : nat) : list (list nat) :=
  match fuel with
  | O => []
  | S fuel' =>
      if i <=? totalPages
      then page_range i (Nat.min (i + PAGES_PER_REQUEST - 1) totalPages)
           :: chunks_from fuel' (i + PAGES_PER_REQUEST) totalPages
      else []
  end.

Definition chunks (totalPages : nat) : list (list nat) :=
  chunks_from totalPages 1 totalPages.

(** The reply of one [batchAnnotateFiles] call: rejected, or the
    [responses[0].responses] field (absent or one entry per page, each with
    an optional [fullTextAnnotation.text]). *)
Inductive vision_reply :=
| VisionRejected
| VisionResponse (pageResponses : option (list (option str))).

Record chunk_result := mkChunk { chunkIndex : nat; text : str; pageRange : list nat }.

Section Fanout.
Variable batchAnnotate : list nat -> vision_reply.

(** One chunk promise: [chunkText += fullTextAnnotation.text + ' '] per
    page that has a text annotation. *)
Definition run_chunk (chunkIdx : nat) (pageRange : list nat) : option chunk_result :=
  match batchAnnotate pageRange with
  | VisionRejected => None
  | VisionResponse rs =>
      let chunkText :=
        match rs with
        | None => []
        | Some pages =>
            List.concat (map (fun o => match o with
                                       | Some t => t ++ [" "%char]
                                       | None => []
                                       end) pages)
        end in
      Some (mkChunk chunkIdx chunkText pageRange)
  end.

Fixpoint list_set {A} (l : list A) (n : nat) (x : A) : list A :=
  match l, n with
  | [], _ => []
  | _ :: l', O => x :: l'
  | y :: l', S n' => y :: list_set l' n' x
  end.

(** [Promise.all]: each settled promise stores its value in the slot of
    its position; [completion] is the order in which the promises settle.
    A rejection rejects the whole join. *)
Fixpoint settle (completion : list nat) (ps : list (option chunk_result))
    (slots : list (option chunk_result)) : option (list (option chunk_result)) :=
  match completion with
  | [] => Some slots
  | j :: rest =>
      match nth j ps None with
      | None => None
      | Some r => settle rest ps (list_set slots j (Some r))
      end
  end.

Definition promise_all (completion : list nat) (ps : list (option chunk_result))
    : option (list chunk_result) :=
  match settle completion ps (repeat None (List.length ps)) with
  | None => None
  | Some slots =>
      if forallb (fun o => match o with Some _ => true | None => false end) slots
      then Some (flat_map (fun o => match o with Some r => [r] | None => [] end) slots)
      else None
  end.

(** [results.sort((a, b) => a.chunkIndex - b.chunkIndex)], a stable sort:
    an element is inserted before the first element not smaller than it. *)
Fixpoint insert_by_index (r : chunk_result) (l : list chunk_result) : list chunk_result :=
  match l with
  | [] => [r]
  | y :: l' => if chunkIndex y <? chunkIndex r then y :: insert_by_index r l'
               else r :: l
  end.

Fixpoint sort_by_index (l : list chunk_result) : list chunk_result :=
  match l with
  | [] => []
  | r :: l' => insert_by_index r (sort_by_index l')
  end.

Definition clean_text (fullText : str) : str :=
  trim (collapse_ws (replace_runs is_newline false fullText)).

(** Returns the page groups requested and, when every request succeeded,
    [{text, pageCount}]; [completion] is the settling order of the
    requests. *)
Definition extractPDFTextOCR (visionConfigured : bool) (totalPages : nat)
    (completion : list nat) : list (list nat) * option (str * nat) :=
  if negb visionConfigured then ([], None) else
  let cs := chunks totalPages in
  let chunkPromises := map (fun p => run_chunk (fst p) (snd p)) (combine (seq 0 (List.length cs)) cs) in
  match promise_all completion chunkPromises with
  | None => (cs, None)
  | Some results =>
      let sorted := sort_by_index results in
      let fullText := join [" "%char] (map text sorted) in
      (cs, Some (clean_text fullText, totalPages))
  end.
End Fanout.
End OCR.

(** ** The [/api/find-quotes] ranking pipeline *)
Module Rank.
Import Text.

Definition MAX_CHARS : N := 50000.

(** [String.prototype.slice(0, n)] for [n >= 0]. *)
Fixpoint js_slice0 (s : str) (n : N) : str :=
  match s with
  | [] => []
  | ch :: rest => if (n =? 0)%N then [] else ch :: js_slice0 rest (N.pred n)
  end.

Fixpoint is_prefix (p s : str) : bool :=
  match p, s with
  | [], _ => true
  | c :: p', d :: s' => Ascii.eqb c d && is_prefix p' s'
  | _ :: _, [] => false
  end.

(** [String.prototype.includes] *)
Fixpoint includes (hay needle : str) : bool :=
  match hay with
  | [] => is_prefix needle []
  | _ :: rest => is_prefix needle hay || includes rest needle
  end.

(** [String.prototype.toLowerCase] on one-byte code units: A-Z and the
    Latin-1 capitals U+00C0..U+00DE except U+00D7. *)
Definition lower_char (ch : ascii) : ascii :=
  let n := nat_of_ascii ch in
  if ((65 <=? n) && (n <=? 90)) || ((192 <=? n) && (n <=? 222) && negb (n =? 215))
  then ascii_of_nat (n + 32) else ch.

Definition toLowerCase (s : str) : str := map lower_char s.

Definition is_punct (ch : ascii) : bool :=
  Ascii.eqb ch "."%char || Ascii.eqb ch "!"%char || Ascii.eqb ch "?"%char.

(** [text.split(/(?<=[.!?])\s+/)]: a separator is a maximal run of
    whitespace whose preceding character is [.], [!] or [?].
    [prevPunct]: the previous character is sentence-final punctuation;
    [inSep]: inside a separator run; [cur]: the current unit, reversed. *)
Fixpoint split_aux (prevPunct inSep : bool) (cur : str) (s : str) : list str :=
  match s with
  | [] => [rev cur]
  | ch :: rest =>
      if inSep then
        if is_ws ch then split_aux false true cur rest
        else split_aux (is_punct ch) false [ch] rest
      else if is_ws ch && prevPunct then rev cur :: split_aux false true [] rest
      else split_aux (is_punct ch) false (ch :: cur) rest
  end.

Definition split_sentences (s : str) : list str := split_aux false false [] s.

(** [.split(/(?<=[.!?])\s+/).map(s => s.trim()).filter(s => s.length > 20)] *)
Definition sentences_of (textContent : str) : list str :=
  filter (fun s => 20 <? List.length s) (map trim (split_sentences textContent)).

(** [s.split(/p+/)] for a one-character class [p]. *)
Fixpoint split_runs (p : ascii -> bool) (inSep : bool) (cur : str) (s : str) : list str :=
  match s with
  | [] => [rev cur]
  | ch :: rest =>
      if p ch then
        if inSep then split_runs p true cur rest
        else rev cur :: split_runs p true [] rest
      else split_runs p false (ch :: cur) rest
  end.

Definition is_lower_alnum (ch : ascii) : bool :=
  let n := nat_of_ascii ch in ((48 <=? n) && (n <=? 57)) || ((97 <=? n) && (n <=? 122)).

(** [topic.toLowerCase().split(/[^a-z0-9]+/).filter(w => w && w.length > 2)] *)
Definition keywords (topic : str) : list str :=
  filter (fun w => str_truthy w && (2 <? List.length w))
    (split_runs (fun ch => negb (is_lower_alnum ch)) false [] (toLowerCase topic)).

(** One Fuse.js result: [item] and [score] ([None] is [null]). *)
Definition fuse_result := (str * option Q)%type.

Definition Qmin' (a b : Q) : Q := if Qle_bool a b then a else b.
Definition Qmax' (a b : Q) : Q := if Qle_bool b a then a else b.
Definition Qltb (x y : Q) : bool := negb (Qle_bool y x).

Definition str_eqb (a b : str) : bool :=
  if list_eq_dec ascii_dec a b then true else false.

(** [fuzzyScoreBySentence]: a [Map] from the sentence to its best weight. *)
Definition fuzzy_map (searchResults : list fuse_result) : JSMap.t (K := str) (V := Q) :=
  fold_left (fun m r =>
    let weight := match snd r with Some sc => (1 - Qmin' 1 sc)%Q | None => 0%Q end in
    let old := match JSMap.get str_eqb (fst r) m with Some w => w | None => 0%Q end in
    JSMap.set str_eqb (fst r) (Qmax' old weight) m) searchResults [].

Record scored := mkScored {
  sentence : str; idx : nat; score : Q; keywordHits : nat;
  fuzzy : Q; exactTopicMatch : Q; keywordDensity : Q }.

Definition minLen : nat := 20.
Definition maxLen : nat := 500.

Definition keyword_hits (topic s : str) : nat :=
  fold_left (fun acc k => acc + if includes (toLowerCase s) k then 1 else 0)
    (keywords topic) 0.

Definition count_char (c : ascii) (s : str) : nat :=
  List.length (filter (fun d => Ascii.eqb d c) s).

Definition score_sentence (topic : str) (sentences : list str)
    (fz : JSMap.t (K := str) (V := Q)) (s : str) (i : nat) : scored :=
  let lower := toLowerCase s in
  let hits := keyword_hits topic s in
  let fuzzy := match JSMap.get str_eqb s fz with Some w => w | None => 0%Q end in
  let lengthOk := if (minLen <=? List.length s) && (List.length s <=? maxLen) then 1%Q else (1 # 2)%Q in
  let total := match List.length sentences with O => 1 | n => n end in
  let positionWeight := (1 - Qmin' (4 # 5) (inject_Z (Z.of_nat i) / inject_Z (Z.of_nat total)))%Q in
  let exact := if includes lower (toLowerCase topic) then 2%Q else 0%Q in
  (* [s.split(' ').length] is one more than the number of spaces *)
  let words := S (count_char " "%char s) in
  let density := (inject_Z (Z.of_nat hits) / inject_Z (Z.of_nat (Nat.max 1 words)) * 10)%Q in
  let sc := (inject_Z (Z.of_nat hits) * 2 + fuzzy * (3 # 2) + exact * 3 + density * 1
            + lengthOk * (3 # 10) + positionWeight * (1 # 10))%Q in
  mkScored s i sc hits fuzzy exact density.

Definition score_all (topic : str) (sentences : list str) (searchResults : list fuse_result)
    : list scored :=
  let fz := fuzzy_map searchResults in
  map (fun p => score_sentence topic sentences fz (snd p) (fst p))
    (combine (seq 0 (List.length sentences)) sentences).

(** [scored.sort((a, b) => b.score - a.score)], stable: an element is
    inserted after every element with a strictly larger score. *)
Fixpoint insert_by_score (e : scored) (l : list scored) : list scored :=
  match l with
  | [] => [e]
  | y :: l' => if Qltb (score e) (score y) then y :: insert_by_score e l' else e :: l
  end.

Fixpoint sort_by_score (l : list scored) : list scored :=
  match l with
  | [] => []
  | e :: l' => insert_by_score e (sort_by_score l')
  end.

Definition relevant (e : scored) : bool :=
  Qltb 0%Q (exactTopicMatch e) || (0 <? keywordHits e) || Qle_bool (3 # 10)%Q (fuzzy e)
  || Qltb (4 # 5)%Q (score e).

Definition memZ (x : Z) (l : list Z) : bool := existsb (Z.eqb x) l.

(** One iteration of the [for (const entry of filtered)] loop over
    [(picked, usedIdx)]; [picked.push] appends at the end. *)
Definition pick_step (n : Z) (st : list Z * list Z) (e : scored) : list Z * list Z :=
  let (picked, usedIdx) := st in
  let i := Z.of_nat (idx e) in
  if memZ i usedIdx then st else
  let picked1 := picked ++ [i] in
  let used1 := i :: usedIdx in
  let before := (i - 1)%Z in
  let after := (i + 1)%Z in
  let (picked2, used2) :=
    if (0 <=? before)%Z && negb (memZ before used1)
    then (picked1 ++ [before], before :: used1) else (picked1, used1) in
  if (after <? n)%Z && negb (memZ after used2)
  then (picked2 ++ [after], after :: used2) else (picked2, used2).

Definition pick (n : Z) (filtered : list scored) : list Z :=
  fst (fold_left (pick_step n) filtered ([], [])).

(** [picked.sort((a, b) => a - b)] *)
Fixpoint insertZ (x : Z) (l : list Z) : list Z :=
  match l with
  | [] => [x]
  | y :: l' => if (y <? x)%Z then y :: insertZ x l' else x :: l
  end.

Fixpoint sortZ (l : list Z) : list Z :=
  match l with
  | [] => []
  | x :: l' => insertZ x (sortZ l')
  end.

(** [sentences[idx]], [undefined] out of range. *)
Definition sentence_at (sentences : list str) (i : Z) : option str :=
  if (i <? 0)%Z then None else nth_error sentences (Z.to_nat i).

(** [picked.map(idx => sentences[idx]).filter(Boolean)] *)
Definition quotes_of (sentences : list str) (sortedIdx : list Z) : list str :=
  flat_map (fun i => match sentence_at sentences i with
                     | Some s => if str_truthy s then [s] else []
                     | None => []
                     end) sortedIdx.

(** What the handler does: reject the request, answer with no quotes, or
    send these candidate quotes (in this order) to the refinement model. *)
Inductive outcome :=
| BadRequest
| NoQuotes
| CallModel (candidates : list str).

Section Pipeline.
(** [fuse.search(topic)] over the sentence list. *)
Variable fuse_search : list str -> str -> list fuse_result.
(** [cheerio.load(raw)('body').text()]; [None] when it throws. *)
Variable cheerio_body_text : str -> option str.

Definition normalize (rawContent : str) : str :=
  let textContent :=
    if includes rawContent (lit "<") && includes rawContent (lit ">")
    then match cheerio_body_text rawContent with Some t => t | None => rawContent end
    else rawContent in
  trim (collapse_ws textContent).

Definition page_sentences (pageContent : str) : list str :=
  sentences_of (normalize (js_slice0 pageContent MAX_CHARS)).

Definition select (topic : str) (sentences : list str) : outcome :=
  let searchResults := fuse_search sentences topic in
  let scored := score_all topic sentences searchResults in
  let hasKeywordSignal := existsb (fun e => 0 <? keywordHits e) scored in
  let hasFuzzySignal := 0 <? List.length searchResults in
  if negb hasKeywordSignal && negb hasFuzzySignal then NoQuotes else
  let sorted := sort_by_score scored in
  let filtered :=
    match filter relevant sorted with
    | [] => filter (fun e => Qltb 0%Q (score e)) sorted
    | l => l
    end in
  match filtered with
  | [] => NoQuotes
  | _ =>
      let picked := pick (Z.of_nat (List.length sentences)) filtered in
      match quotes_of sentences (sortZ picked) with
      | [] => NoQuotes
      | relevantQuotes => CallModel relevantQuotes
      end
  end.

(** The [/api/find-quotes] handler up to the refinement call. *)
Definition find_quotes (topic pageContent : str) : outcome :=
  if negb (str_truthy topic) || negb (str_truthy pageContent) then BadRequest
  else select topic (page_sentences pageContent).
End Pipeline.
End Rank.

(** ** Scenarios and closed forms used to state properties *)
(** ** The request log ([csvEscape], [logPromptToCsv]) *)
Module Csv.
Import Text Rank.

Definition DQ : ascii := ascii_of_nat 34.
Definition LF : ascii := ascii_of_nat 10.
Definition CR : ascii := ascii_of_nat 13.

(** [csvEscape(value)] for a string or an absent value ([null] or
    [undefined] become [''] through [value ?? '']): a field containing a
    double quote, a comma, LF or CR is wrapped in double quotes with every
    double quote doubled (the global [replace] of the quote); any other field is written
    as it is. *)
Definition csvEscape (value : option str) : str :=
  let text := match value with Some s => s | None => [] end in
  if includes text [DQ] || includes text [","%char] || includes text [LF]
     || includes text [CR]
  then [DQ] ++ flat_map (fun c => if Ascii.eqb c DQ then [DQ; DQ] else [c]) text ++ [DQ]
  else text.

(** [v || d] for a string-valued request field. *)
Definition or_default (v : option str) (d : str) : str :=
  match v with Some s => if str_truthy s then s else d | None => d end.

(** The header [fs.writeFileSync] puts in a fresh log file. *)
Definition LOG_HEADER : str := lit "timestamp,topic,page_title,page_url" ++ [LF].

(** The row [logPromptToCsv] builds; [iso] is [new Date().toISOString()]. *)
Definition log_row (iso : str) (topic pageTitle pageUrl : option str) : str :=
  join [","%char]
    [iso; csvEscape topic;
     csvEscape (Some (or_default pageTitle (lit "Current Page")));
     csvEscape (Some (or_default pageUrl (lit "Unknown URL")))] ++ [LF].

(** The log file after the [fs.appendFile] of the row (a failed write is
    only reported on the console). *)
Definition logPromptToCsv (iso : str) (topic pageTitle pageUrl : option str)
    (logFile : str) : str :=
  logFile ++ log_row iso topic pageTitle pageUrl.
End Csv.

(** A reader of the log file as CSV (RFC 4180: fields separated by commas,
    records ended by LF, a double-quoted field may contain commas, line
    breaks and doubled double quotes).  It is the consumer the escaping is
    designed for, used to state what the written rows mean. *)
Module CsvReader.
Import Csv.

Inductive mode := FieldStart | Plain | Quoted | QuoteSeen.

(** [field] and [fields] are kept reversed. *)
Record rstate := mkR { rmode : mode; field : str; fields : list str;
                       records : list (list str) }.

Definition push_field (st : rstate) : rstate :=
  mkR FieldStart [] (rev (field st) :: fields st) (records st).

Definition end_record (st : rstate) : rstate :=
  mkR FieldStart [] [] (records st ++ [rev (rev (field st) :: fields st)]).

Definition add_char (c : ascii) (m : mode) (st : rstate) : rstate :=
  mkR m (c :: field st) (fields st) (records st).

Definition read_char (ost : option rstate) (c : ascii) : option rstate :=
  match ost with
  | None => None
  | Some st =>
      match rmode st with
      | FieldStart =>
          if Ascii.eqb c DQ then Some (mkR Quoted [] (fields st) (records st))
          else if Ascii.eqb c ","%char then Some (push_field st)
          else if Ascii.eqb c LF then Some (end_record st)
          else Some (add_char c Plain st)
      | Plain =>
          if Ascii.eqb c ","%char then Some (push_field st)
          else if Ascii.eqb c LF then Some (end_record st)
          else Some (add_char c Plain st)
      | Quoted =>
          if Ascii.eqb c DQ then Some (mkR QuoteSeen (field st) (fields st) (records st))
          else Some (add_char c Quoted st)
      | QuoteSeen =>
          if Ascii.eqb c DQ then Some (add_char DQ Quoted st)
          else if Ascii.eqb c ","%char then Some (push_field st)
          else if Ascii.eqb c LF then Some (end_record st)
          else None
      end
  end.

Definition csv_init : option rstate := Some (mkR FieldStart [] [] []).

(** The records of a file whose last record is ended by LF. *)
Definition csv_parse (s : str) : option (list (list str)) :=
  match fold_left read_char s csv_init with
  | Some (mkR FieldStart [] [] rs) => Some rs
  | _ => None
  end.
End CsvReader.

(** ** The refinement step of [/api/find-quotes] *)
Module Refine.
Import Text Rank Csv.

(** The values [JSON.parse] can return. *)
Unset Elimination Schemes.
Inductive json :=
| JNull
| JBool (b : bool)
| JNum (q : Q)
| JStr (s : str)
| JArr (items : list json)
| JObj (members : list (str * json)).
Set Elimination Schemes.

Definition json_truthy (j : json) : bool :=
  match j with
  | JNull => false
  | JBool b => b
  | JNum q => negb (Qeq_bool q 0)
  | JStr s => str_truthy s
  | JArr _ | JObj _ => true
  end.

(** [item.k]: a TypeError on [null]; [undefined] ([Some None]) when the
    property is absent; for a parsed object the last member named [k]. *)
Definition get_prop (item : json) (k : str) : option (option json) :=
  match item with
  | JNull => None
  | JObj members =>
      Some (fold_left (fun acc kv => if str_eqb (fst kv) k then Some (snd kv) else acc)
              members None)
  | _ => Some None
  end.

Definition BT : ascii := "`"%char.
Definition FENCE : str := [BT; BT; BT].

(** [s.replace(/```tag\s*/, '')]: the first occurrence of the fence and
    the whitespace run after it are removed. *)
Fixpoint remove_open_fence (tag : str) (s : str) : str :=
  match s with
  | [] => []
  | c :: r =>
      if is_prefix (FENCE ++ tag) s then drop_ws (skipn (3 + List.length tag) s)
      else c :: remove_open_fence tag r
  end.

(** [s.replace(/```\s*$/, '')]: the first fence followed only by
    whitespace up to the end is removed together with that whitespace. *)
Fixpoint remove_close_fence (s : str) : str :=
  match s with
  | [] => []
  | c :: r =>
      if is_prefix FENCE s && forallb is_ws (skipn 3 s) then []
      else c :: remove_close_fence r
  end.

Definition strip_fences (rawContent : str) : str :=
  if includes rawContent (FENCE ++ lit "json")
  then remove_close_fence (remove_open_fence (lit "json") rawContent)
  else if includes rawContent FENCE
  then remove_close_fence (remove_open_fence [] rawContent)
  else rawContent.

(** Decimal printing of a natural number ([`${n}`]). *)
Fixpoint dec_aux (fuel n : nat) (acc : str) : str :=
  match fuel with
  | O => acc
  | S fuel' =>
      let acc' := ascii_of_nat (48 + n mod 10) :: acc in
      if n <? 10 then acc' else dec_aux fuel' (n / 10) acc'
  end.

Definition to_dec (n : nat) : str := dec_aux (S n) n [].

Section Parse.
(** [JSON.parse]; [None] when it throws. *)
Variable json_parse : str -> option json.

(** [analyzedQuotes.map((item, index) => ({quote: item.quote || item,
    relevance: item.relevance || `AI-analyzed quote #${index + 1}`}))];
    [None] when an item is [null] (the property read throws). *)
Fixpoint map_items (index : nat) (items : list json) : option (list (json * json)) :=
  match items with
  | [] => Some []
  | item :: rest =>
      match get_prop item (lit "quote"), get_prop item (lit "relevance") with
      | Some q, Some r =>
          let quote := match q with Some v => if json_truthy v then v else item
                                    | None => item end in
          let relevance :=
            match r with
            | Some v => if json_truthy v then v
                        else JStr (lit "AI-analyzed quote #" ++ to_dec (S index))
            | None => JStr (lit "AI-analyzed quote #" ++ to_dec (S index))
            end in
          match map_items (S index) rest with
          | Some l => Some ((quote, relevance) :: l)
          | None => None
          end
      | _, _ => None
      end
  end.

(** The [catch] branch: the candidates themselves, numbered from 1. *)
Definition fallback_quotes (relevantQuotes : list str) : list (json * json) :=
  map (fun p => (JStr (snd p),
                 JStr (lit "Selected based on topic relevance and text analysis #"
                       ++ to_dec (S (fst p)))))
      (combine (seq 0 (List.length relevantQuotes)) relevantQuotes).

(** The [try]/[catch] around the reply: [rawContent] is
    [completion.choices[0].message.content] ([None] when it is not a
    string, so that [rawContent.includes] throws).  A reply that does not
    parse, parses to something other than an array, or holds a [null] item
    falls back to the candidates. *)
Definition analyze (rawContent : option str) (relevantQuotes : list str)
    : list (json * json) :=
  let parsed :=
    match rawContent with
    | None => None
    | Some raw =>
        match json_parse (strip_fences raw) with
        | Some (JArr items) => map_items 0 items
        | _ => None
        end
    end in
  match parsed with
  | Some l => l
  | None => fallback_quotes relevantQuotes
  end.
End Parse.

(** The user message: the topic in double quotes after [Topic: ], a blank
    line, [Text segments:], a line break and the candidates joined by blank
    lines ([relevantQuotes.join] of two LFs). *)
Definition user_content (topic : str) (relevantQuotes : list str) : str :=
  lit "Topic: " ++ [DQ] ++ topic ++ [DQ; LF; LF] ++ lit "Text segments:" ++ [LF]
  ++ join [LF; LF] relevantQuotes.

(** What [/api/find-quotes] answers. *)
Inductive fq_response :=
| FQBadRequest
| FQEmpty
| FQServerError
| FQQuotes (quotes : list (json * json)) (pageTitle pageUrl : str) (fromPdf : bool).

Section Handler.
Variable fuse_search : list str -> str -> list fuse_result.
Variable cheerio_body_text : str -> option str.
Variable json_parse : str -> option json.
(** The chat completion for the user message, with the OCR note in the
    system prompt when [isOCR]; [None] when the call throws, [Some None]
    when the reply has no string content. *)
Variable chat : bool -> str -> option (option str).

(** The whole handler over the log file: [iso] is the time stamp the log
    row gets. *)
Definition find_quotes_handler (iso : str) (topic pageContent : str)
    (pageUrl pageTitle : option str) (isOCR fromPdf : bool) (logFile : str)
    : str * fq_response :=
  if negb (str_truthy topic) || negb (str_truthy pageContent)
  then (logFile, FQBadRequest) else
  let logFile' := logPromptToCsv iso (Some topic) pageTitle pageUrl logFile in
  match find_quotes fuse_search cheerio_body_text topic pageContent with
  | BadRequest => (logFile', FQBadRequest)
  | NoQuotes => (logFile', FQEmpty)
  | CallModel relevantQuotes =>
      match chat isOCR (user_content topic relevantQuotes) with
      | None => (logFile', FQServerError)
      | Some rawContent =>
          (logFile', FQQuotes (analyze json_parse rawContent relevantQuotes)
                       (or_default pageTitle (lit "Current Page"))
                       (or_default pageUrl (lit "Unknown URL")) fromPdf)
      end
  end.
End Handler.
End Refine.

(** ** [/api/format-citation] *)
Module Citation.
Import Text Rank Csv Refine.

Definition opt_truthy (v : option str) : bool :=
  match v with Some s => str_truthy s | None => false end.

Inductive citation_response :=
| CiteBadRequest
| CiteOk (citation parenthetical narrative : str).

(** [generated] is the result of [generateCitation(pageUrl, format)]:
    [Some (inText, fullCitation)], or [None] when it throws;
    [currentYear] is [new Date().getFullYear()]. *)
Definition format_citation (quote pageTitle pageUrl format author publicationDate : option str)
    (currentYear : nat) (generated : option (str * str)) : citation_response :=
  if negb (opt_truthy quote) || negb (opt_truthy pageTitle) || negb (opt_truthy pageUrl)
     || negb (opt_truthy format)
  then CiteBadRequest else
  match generated with
  | Some (inText, fullCitation) =>
      (* [inText.replace(/[()]/g, '')] *)
      CiteOk fullCitation inText
        (filter (fun c => negb (Ascii.eqb c "("%char || Ascii.eqb c ")"%char)) inText)
  | None =>
      let q := or_default quote [] in
      let t := or_default pageTitle [] in
      let u := or_default pageUrl [] in
      let f := or_default format [] in
      let d := or_default publicationDate (to_dec currentYear) in
      let a := or_default author (lit "Unknown") in
      let citation :=
        if str_eqb f (lit "MLA")
        then [DQ] ++ q ++ [DQ] ++ lit " " ++ t ++ lit ". " ++ d ++ lit ", " ++ u ++ lit "."
        else if str_eqb f (lit "APA")
        then [DQ] ++ q ++ [DQ] ++ lit " (" ++ a ++ lit ", " ++ d ++ lit "). " ++ t
             ++ lit ". Retrieved from " ++ u
        else if str_eqb f (lit "Chicago")
        then [DQ] ++ q ++ [DQ] ++ lit " " ++ t ++ lit ". " ++ d ++ lit ". " ++ u ++ lit "."
        else [] in
      CiteOk citation (lit "(" ++ a ++ lit ", " ++ d ++ lit ")")
        (a ++ lit " (" ++ d ++ lit ")")
  end.
End Citation.

Module CacheScenario.
Import Cache.

Definition distinct_keys : list key :=
  map (fun n => Some [ascii_of_nat (65 + n)]) (seq 0 16).

(** Successive [cachePdfContent] calls, all at clock value [now]. *)
Definition insert_all (now : Z) (ks : list key) (c : cache) : cache :=
  fold_left (fun c k => cachePdfContent now k (lit "pdf text") false c) ks c.
End CacheScenario.

Module SegmentSpec.
Import Segments.

(** [ceil(L / SEGMENT_SIZE)] *)
Definition seg_count (L : N) : N := ((L + SEGMENT_SIZE - 1) / SEGMENT_SIZE)%N.

(** The [i]-th half-open range [[i*S, min((i+1)*S, L))]. *)
Definition seg_of (L i : N) : segment :=
  mkSegment i (i * SEGMENT_SIZE) (N.min ((i + 1) * SEGMENT_SIZE) L).

Definition response_content (r : segment_response) : str :=
  match r with SegOk t _ _ _ _ => t | _ => [] end.
End SegmentSpec.

(** The shape of a sentence split: a first unit followed by (separator,
    unit) pairs. *)
Module SplitSpec.
Import Text Rank.

Fixpoint interleave (u : str) (rest : list (str * str)) : str :=
  match rest with
  | [] => u
  | (w, v) :: r => u ++ w ++ interleave v r
  end.

(** No sentence-final punctuation directly followed by whitespace. *)
Fixpoint no_split_point (u : str) : bool :=
  match u with
  | x :: ((y :: _) as r) => negb (is_punct x && is_ws y) && no_split_point r
  | _ => true
  end.

Definition ends_punct (u : str) : bool :=
  match rev u with c :: _ => is_punct c | [] => false end.

Definition starts_non_ws (u : str) : bool :=
  match u with c :: _ => negb (is_ws c) | [] => true end.

(** Every unit is free of split points; a unit followed by a separator
    ends in [.], [!] or [?]; a separator is a non-empty whitespace run,
    and the unit after it does not start with whitespace (the run is
    maximal). *)
Fixpoint shape_ok (u : str) (rest : list (str * str)) : Prop :=
  no_split_point u = true /\
  match rest with
  | [] => True
  | (w, v) :: r =>
      ends_punct u = true /\ w <> [] /\ Forall (fun c => is_ws c = true) w /\
      starts_non_ws v = true /\ shape_ok v r
  end.
End SplitSpec.

(** Whitespace shape of a cleaned text: no two adjacent whitespace
    characters, every whitespace character a plain space, and no leading
    or trailing whitespace. *)
Module TextSpec.
Import Text SplitSpec.

Fixpoint ws_single (s : str) : bool :=
  match s with
  | x :: ((y :: _) as r) => negb (is_ws x && is_ws y) && ws_single r
  | _ => true
  end.

Definition ws_spaces (s : str) : bool :=
  forallb (fun c => negb (is_ws c) || Ascii.eqb c " "%char) s.

Definition trimmed (s : str) : bool := starts_non_ws s && starts_non_ws (rev s).

Definition clean_shape (s : str) : bool := ws_single s && ws_spaces s && trimmed s.
End TextSpec.

(** * Theorems *)

(** ** Facts about the [Map] model *)
Module JSMapFacts.
Section Facts.
Context {K V : Type} (keq : K -> K -> bool).
Hypothesis keq_spec : forall a b, keq a b = true <-> a = b.

Lemma keq_refl k : keq k k = true.
Proof. apply keq_spec; reflexivity. Qed.

Lemma keq_false a b : a <> b -> keq a b = false.
Proof.
intros Hne. destruct (keq a b) eqn:E; [|reflexivity].
exfalso. apply Hne, keq_spec, E.
Qed.

Lemma get_set_same k v (m : JSMap.t (K:=K) (V:=V)) :
JSMap.get keq k (JSMap.set keq k v m) = Some v.
Proof.
induction m as [|[k' v'] m IH]; simpl.
- rewrite keq_refl; reflexivity.
- destruct (keq k k') eqn:E; simpl; rewrite E; [reflexivity | exact IH].
Qed.

Lemma keys_set k v (m : JSMap.t (K:=K) (V:=V)) :
map fst (JSMap.set keq k v m) =
if JSMap.has keq k m then map fst m else map fst m ++ [k].
Proof.
unfold JSMap.has. induction m as [|[k' v'] m IH]; simpl; [reflexivity|].
destruct (keq k k') eqn:E; simpl; [reflexivity|].
rewrite IH. destruct (JSMap.get keq k m); reflexivity.
Qed.

Lemma get_none_not_in k (m : JSMap.t (K:=K) (V:=V)) :
JSMap.get keq k m = None <-> ~ In k (map fst m).
Proof.
induction m as [|[k' v'] m IH]; simpl; [tauto|].
destruct (keq k k') eqn:E.
- apply keq_spec in E. subst. split; [discriminate | tauto].
- rewrite IH. split; [|tauto]. intros H [H1|H1]; [|tauto].
  subst. rewrite keq_refl in E. discriminate.
Qed.

Lemma get_delete_same k (m : JSMap.t (K:=K) (V:=V)) :
NoDup (map fst m) -> JSMap.get keq k (JSMap.delete keq k m) = None.
Proof.
induction m as [|[k' v'] m IH]; simpl; intros Hnd; [reflexivity|].
inversion Hnd as [|? ? Hnin Hnd']; subst.
destruct (keq k k') eqn:E.
- apply keq_spec in E; subst. apply get_none_not_in; exact Hnin.
- simpl. rewrite E. apply IH, Hnd'.
Qed.

Lemma keys_delete_incl k (m : JSMap.t (K:=K) (V:=V)) x :
In x (map fst (JSMap.delete keq k m)) -> In x (map fst m).
Proof.
induction m as [|[k' v'] m IH]; simpl; [tauto|].
destruct (keq k k'); simpl; tauto.
Qed.

Lemma nodup_delete k (m : JSMap.t (K:=K) (V:=V)) :
NoDup (map fst m) -> NoDup (map fst (JSMap.delete keq k m)).
Proof.
induction m as [|[k' v'] m IH]; simpl; intros Hnd; [constructor|].
inversion Hnd as [|? ? Hnin Hnd']; subst.
destruct (keq k k'); simpl; [exact Hnd'|].
constructor; [|apply IH, Hnd'].
intros Hin. apply Hnin, (keys_delete_incl k), Hin.
Qed.

Lemma nodup_set k v (m : JSMap.t (K:=K) (V:=V)) :
NoDup (map fst m) -> NoDup (map fst (JSMap.set keq k v m)).
Proof.
intros Hnd. rewrite keys_set. unfold JSMap.has.
destruct (JSMap.get keq k m) eqn:E; [exact Hnd|].
apply get_none_not_in in E.
apply NoDup_app; [exact Hnd | constructor; [tauto|constructor] |].
intros x Hx [Hy|[]]; subst; tauto.
Qed.

Lemma nodup_filter (f : K * V -> bool) (m : JSMap.t (K:=K) (V:=V)) :
NoDup (map fst m) -> NoDup (map fst (filter f m)).
Proof.
induction m as [|[k' v'] m IH]; simpl; intros Hnd; [constructor|].
inversion Hnd as [|? ? Hnin Hnd']; subst.
destruct (f (k', v')); simpl; [|apply IH, Hnd'].
constructor; [|apply IH, Hnd'].
intros Hin. apply Hnin. rewrite in_map_iff in Hin |- *.
destruct Hin as [y [Hy Hy']]. exists y. split; [exact Hy|].
apply filter_In in Hy'. tauto.
Qed.
End Facts.
End JSMapFacts.

Module CacheFacts.
Import Cache JSMapFacts.

Lemma key_eqb_spec a b : key_eqb a b = true <-> a = b.
Proof.
  destruct a as [x|], b as [y|]; simpl; try (split; congruence).
  destruct (list_eq_dec ascii_dec x y); split; congruence.
Qed.

Definition well_formed (c : cache) : Prop := NoDup (map fst c).

Lemma cachePdfContent_wf now url cont ocr c :
  well_formed c -> well_formed (cachePdfContent now url cont ocr c).
Proof.
  unfold well_formed, cachePdfContent, sweep. intros Hnd.
  apply (nodup_set key_eqb key_eqb_spec).
  pose proof (nodup_filter (V:=entry) (fun kv => negb (expired now (snd kv))) c Hnd) as H1.
  destruct (_ && _); [|exact H1].
  destruct (oldest_scan _ _ _) as [k|]; [|exact H1].
  destruct (key_truthy k); [|exact H1].
  apply nodup_delete, H1.
Qed.

Lemma getCached_wf now url c :
  well_formed c -> well_formed (fst (getCachedPdfContent now url c)).
Proof.
  unfold well_formed, getCachedPdfContent. intros Hnd.
  destruct (JSMap.get key_eqb url c) as [e|]; [|exact Hnd].
  destruct (expired now e); simpl.
  - apply nodup_delete, Hnd.
  - apply (nodup_set key_eqb key_eqb_spec), Hnd.
Qed.

Lemma getCached_expired now url c e :
  well_formed c -> JSMap.get key_eqb url c = Some e -> expired now e = true ->
  snd (getCachedPdfContent now url c) = None /\
  JSMap.get key_eqb url (fst (getCachedPdfContent now url c)) = None.
Proof.
  intros Hwf Hg He. unfold getCachedPdfContent. rewrite Hg, He; simpl.
  split; [reflexivity|]. apply (get_delete_same key_eqb key_eqb_spec), Hwf.
Qed.

Lemma getCached_absent now url c :
  JSMap.get key_eqb url c = None -> getCachedPdfContent now url c = (c, None).
Proof. intros Hg. unfold getCachedPdfContent. rewrite Hg. reflexivity. Qed.

(** ** C6 *)
(** C6: after [put(k, content, isOCR)] at time [t], a [get(k)] at a time
    more than [PDF_CACHE_DURATION] later misses, the entry is removed from
    storage and a following [get(k)] (at any time) misses as well; a
    [get(k)] within the TTL returns the stored content and OCR flag and
    refreshes the entry's timestamp to the read time. *)
Theorem get_after_put_ttl (c : cache) (k : key) (cont : str) (ocr : bool)
    (t t' : Z) (Hwf : well_formed c) :
  let c1 := cachePdfContent t k cont ocr c in
  ((t' - t > PDF_CACHE_DURATION)%Z ->
     snd (getCachedPdfContent t' k c1) = None /\
     JSMap.get key_eqb k (fst (getCachedPdfContent t' k c1)) = None /\
     (forall t'', snd (getCachedPdfContent t'' k
                         (fst (getCachedPdfContent t' k c1))) = None)) /\
  ((t' - t <= PDF_CACHE_DURATION)%Z ->
     getCachedPdfContent t' k c1 =
       (JSMap.set key_eqb k (mkEntry cont ocr t') c1, Some (mkEntry cont ocr t'))).
Proof.
  intros c1.
  assert (Hg : JSMap.get key_eqb k c1 = Some (mkEntry cont ocr t))
    by (apply (get_set_same key_eqb key_eqb_spec)).
  split.
  - intros Hlt.
    assert (He : expired t' (mkEntry cont ocr t) = true)
      by (unfold expired; simpl; apply Z.gtb_lt; lia).
    assert (Hwf1 : well_formed c1) by (apply cachePdfContent_wf, Hwf).
    destruct (getCached_expired t' k c1 _ Hwf1 Hg He) as [H1 H2].
    split; [exact H1|]. split; [exact H2|].
    intros t''. rewrite (getCached_absent t'' k _ H2). reflexivity.
  - intros Hle. unfold getCachedPdfContent. rewrite Hg.
    assert (He : expired t' (mkEntry cont ocr t) = false)
      by (unfold expired; simpl; rewrite Z.gtb_ltb; apply Z.ltb_ge; lia).
    rewrite He. reflexivity.
Qed.

Lemma get_after_put_ttl_witness :
  well_formed [] /\
  (let c1 := cachePdfContent 0 (Some (lit "u")) (lit "text") true [] in
   ((300001 - 0 > PDF_CACHE_DURATION)%Z ->
     snd (getCachedPdfContent 300001 (Some (lit "u")) c1) = None /\
     JSMap.get key_eqb (Some (lit "u")) (fst (getCachedPdfContent 300001 (Some (lit "u")) c1)) = None /\
     (forall t'', snd (getCachedPdfContent t'' (Some (lit "u"))
                         (fst (getCachedPdfContent 300001 (Some (lit "u")) c1))) = None)) /\
   ((300001 - 0 <= PDF_CACHE_DURATION)%Z ->
     getCachedPdfContent 300001 (Some (lit "u")) c1 =
       (JSMap.set key_eqb (Some (lit "u")) (mkEntry (lit "text") true 300001) c1,
        Some (mkEntry (lit "text") true 300001)))).
Proof.
  assert (H : well_formed []) by constructor.
  split; [exact H|].
  exact (get_after_put_ttl [] (Some (lit "u")) (lit "text") true 0 300001 H).
Defined.
End CacheFacts.

Module CacheCapacity.
Import Cache CacheScenario.

(** ** C5 *)
(** C5 (counterexample): inserting [MAX_CACHE_SIZE + 1 = 16] distinct keys
    into an empty cache, all within the same clock millisecond (no TTL
    expiry in between), leaves 16 entries.  The oldest-entry scan starts
    from [oldestTime = Date.now()] and only accepts strictly smaller
    timestamps, so when every entry is stamped with the current time no
    key is found and nothing is evicted. *)
Lemma cache_capacity_same_instant :
  NoDup distinct_keys /\ List.length distinct_keys = S MAX_CACHE_SIZE /\
  JSMap.size (insert_all 0 distinct_keys []) = 16%nat /\
  oldest_scan (insert_all 0 (firstn 15 distinct_keys) []) None 0 = None.
Proof.
  split; [|vm_compute; repeat split].
  unfold distinct_keys; simpl.
  repeat constructor; simpl; intuition discriminate.
Qed.
End CacheCapacity.

Module SegmentFacts.
Import Cache Segments SegmentSpec CacheFacts.

Lemma segment_size_val : SEGMENT_SIZE = 50000%N.
Proof. reflexivity. Qed.

Lemma in_range_iff (j : nat) (L : N) :
  (N.of_nat j * SEGMENT_SIZE < L)%N <-> j < N.to_nat (seg_count L).
Proof.
  unfold seg_count. rewrite segment_size_val.
  pose proof (N.div_mod (L + 50000 - 1) 50000 ltac:(discriminate)).
  pose proof (N.mod_lt (L + 50000 - 1) 50000 ltac:(discriminate)).
  remember ((L + 50000 - 1) / 50000)%N as q.
  remember ((L + 50000 - 1) mod 50000)%N as r.
  lia.
Qed.

Lemma seg_count_fuel (L : N) :
  N.to_nat (seg_count L) <= S (N.to_nat (L / SEGMENT_SIZE)).
Proof.
  unfold seg_count. rewrite segment_size_val.
  pose proof (N.div_mod (L + 50000 - 1) 50000 ltac:(discriminate)).
  pose proof (N.mod_lt (L + 50000 - 1) 50000 ltac:(discriminate)).
  pose proof (N.div_mod L 50000 ltac:(discriminate)).
  pose proof (N.mod_lt L 50000 ltac:(discriminate)).
  remember ((L + 50000 - 1) / 50000)%N as q.
  remember ((L + 50000 - 1) mod 50000)%N as r.
  remember (L / 50000)%N as q'. remember (L mod 50000)%N as r'.
  lia.
Qed.

Lemma segments_from_closed (L : N) (fuel j : nat) (i idx : N) :
  i = (N.of_nat j * SEGMENT_SIZE)%N -> idx = N.of_nat j ->
  N.to_nat (seg_count L) - j <= fuel ->
  segments_from fuel L i idx =
  map (fun n => seg_of L (N.of_nat n)) (seq j (N.to_nat (seg_count L) - j)).
Proof.
  revert j i idx. induction fuel as [|fuel IH]; intros j i idx Hi Hidx Hf.
  - replace (N.to_nat (seg_count L) - j) with 0 by lia. reflexivity.
  - simpl. destruct (i <? L)%N eqn:E.
    + apply N.ltb_lt in E. subst i.
      assert (Hj : j < N.to_nat (seg_count L)) by (apply in_range_iff; exact E).
      replace (N.to_nat (seg_count L) - j) with (S (N.to_nat (seg_count L) - S j)) by lia.
      simpl. f_equal.
      * unfold seg_of. subst idx. f_equal. f_equal. lia.
      * apply IH; [lia | subst idx; lia | lia].
    + apply N.ltb_ge in E. subst i.
      assert (Hj : ~ j < N.to_nat (seg_count L)) by (rewrite <- in_range_iff; lia).
      replace (N.to_nat (seg_count L) - j) with 0 by lia. reflexivity.
Qed.

Lemma segments_closed (L : N) :
  segments L = map (fun n => seg_of L (N.of_nat n)) (seq 0 (N.to_nat (seg_count L))).
Proof.
  unfold segments. rewrite (segments_from_closed L _ 0); try reflexivity.
  - rewrite Nat.sub_0_r. reflexivity.
  - pose proof (seg_count_fuel L). lia.
Qed.
Lemma substring_in_range (s : str) (a b : N) :
  (a <= b)%N -> (b <= N.of_nat (List.length s))%N ->
  js_substring s a b = firstn (N.to_nat b - N.to_nat a) (skipn (N.to_nat a) s).
Proof.
  intros Hab Hb. unfold js_substring.
  replace (N.min a (N.of_nat (List.length s))) with a by lia.
  replace (N.min b (N.of_nat (List.length s))) with b by lia.
  replace (N.min a b) with a by lia. replace (N.max a b) with b by lia.
  f_equal. lia.
Qed.

Lemma concat_segments_from (s : str) (k j : nat) :
  let L := N.of_nat (List.length s) in
  k = N.to_nat (seg_count L) - j ->
  List.concat (map (fun n => let sg := seg_of L (N.of_nat n) in
                        js_substring s (seg_start sg) (seg_end sg))
              (seq j k))
  = skipn (j * N.to_nat SEGMENT_SIZE) s.
Proof.
  intros L. revert j. induction k as [|k IH]; intros j Hk.
  - simpl. symmetry. apply skipn_all2.
    assert (~ j < N.to_nat (seg_count L)) by lia.
    rewrite <- in_range_iff in H. rewrite segment_size_val in *. unfold L in H. lia.
  - assert (Hj : j < N.to_nat (seg_count L)) by lia.
    apply in_range_iff in Hj.
    change (seq j (S k)) with (j :: seq (S j) k).
    rewrite map_cons, concat_cons.
    rewrite (IH (S j)) by lia.
    unfold seg_of; cbn [seg_start seg_end].
    rewrite substring_in_range by (unfold L in *; lia).
    set (a := N.to_nat (N.of_nat j * SEGMENT_SIZE)).
    set (b := N.to_nat (N.min ((N.of_nat j + 1) * SEGMENT_SIZE) L)).
    assert (Ha : a = j * N.to_nat SEGMENT_SIZE) by (unfold a; lia).
    rewrite <- Ha.
    rewrite <- (firstn_skipn (b - a) (skipn a s)) at 2. f_equal.
    rewrite skipn_skipn.
    destruct (N.leb_spec ((N.of_nat j + 1) * SEGMENT_SIZE) L) as [Hle|Hgt].
    + f_equal. unfold b, a. rewrite segment_size_val in *. lia.
    + rewrite !skipn_all2; [reflexivity| |];
        unfold b, a, L in *; rewrite segment_size_val in *; lia.
Qed.

Lemma get_pdf_segment_live (now : Z) (k : key) (i : N) (c : cache) (e : entry) :
  key_truthy k = true -> JSMap.get key_eqb k c = Some e -> expired now e = false ->
  get_pdf_segment now k (Some i) c =
  (JSMap.set key_eqb k (mkEntry (content e) (isOCR e) now) c,
   let start := (i * SEGMENT_SIZE)%N in
   let end_ := N.min (start + SEGMENT_SIZE) (N.of_nat (List.length (content e))) in
   SegOk (js_substring (content e) start end_) i start end_ (isOCR e)).
Proof.
  intros Hk Hg He. unfold get_pdf_segment. rewrite Hk. cbn [negb].
  unfold getCachedPdfContent. rewrite Hg, He. reflexivity.
Qed.

Lemma fetch_live (now : Z) (k : key) (idxs : list N) (c : cache) (e : entry) :
  key_truthy k = true -> JSMap.get key_eqb k c = Some e -> expired now e = false ->
  snd (fetch_segments now k idxs c) =
  map (fun i =>
         let start := (i * SEGMENT_SIZE)%N in
         let end_ := N.min (start + SEGMENT_SIZE) (N.of_nat (List.length (content e))) in
         SegOk (js_substring (content e) start end_) i start end_ (isOCR e)) idxs.
Proof.
  intros Hk. revert c e. induction idxs as [|i idxs IH]; intros c e Hg He; [reflexivity|].
  cbn [fetch_segments]. rewrite (get_pdf_segment_live now k i c e Hk Hg He).
  set (e' := mkEntry (content e) (isOCR e) now).
  specialize (IH (JSMap.set key_eqb k e' c) e'
                (JSMapFacts.get_set_same key_eqb key_eqb_spec k e' c)).
  destruct (fetch_segments now k idxs (JSMap.set key_eqb k e' c)) as [c2 rs].
  cbn [snd map] in *. f_equal. apply IH.
  unfold expired; simpl. rewrite Z.sub_diag. reflexivity.
Qed.

(** ** C7 *)
(** C7: the segment metadata of a content of length [L] is the list of
    half-open ranges [[i*S, min((i+1)*S, L))] for [i = 0 .. ceil(L/S)-1]
    with [S = SEGMENT_SIZE = 50000]; fetching those segment indices one
    after the other from a live cache entry returns exactly these ranges,
    and concatenating the returned texts gives back the cached content
    (no overlap, no gap).  For [L = 50001] there are exactly the two
    segments [[0,50000)] and [[50000,50001)]. *)
Theorem segments_reassemble (c : cache) (k : key) (e : entry) (now : Z)
    (Hk : key_truthy k = true) (Hg : JSMap.get key_eqb k c = Some e)
    (Hlive : expired now e = false) :
  let L := N.of_nat (List.length (content e)) in
  segments L = map (fun n => seg_of L (N.of_nat n)) (seq 0 (N.to_nat (seg_count L))) /\
  snd (fetch_segments now k (map seg_index (segments L)) c) =
    map (fun sg => SegOk (js_substring (content e) (seg_start sg) (seg_end sg))
                         (seg_index sg) (seg_start sg) (seg_end sg) (isOCR e))
        (segments L) /\
  List.concat (map response_content
                   (snd (fetch_segments now k (map seg_index (segments L)) c)))
    = content e /\
  segments 50001 = [mkSegment 0 0 50000; mkSegment 1 50000 50001].
Proof.
  intros L.
  assert (Hfetch : snd (fetch_segments now k (map seg_index (segments L)) c) =
    map (fun sg => SegOk (js_substring (content e) (seg_start sg) (seg_end sg))
                         (seg_index sg) (seg_start sg) (seg_end sg) (isOCR e))
        (segments L)).
  { rewrite (fetch_live now k _ c e Hk Hg Hlive).
    rewrite segments_closed, !map_map. apply map_ext. intros n.
    unfold seg_of; cbn [seg_index seg_start seg_end].
    replace (N.of_nat n * SEGMENT_SIZE + SEGMENT_SIZE)%N
      with ((N.of_nat n + 1) * SEGMENT_SIZE)%N by lia.
    reflexivity. }
  split; [apply segments_closed|].
  split; [exact Hfetch|].
  split; [|vm_compute; reflexivity].
  rewrite Hfetch, map_map, segments_closed, map_map. cbn [response_content].
  rewrite (concat_segments_from (content e) _ 0) by (subst L; lia).
  reflexivity.
Qed.

Lemma segments_reassemble_witness :
  let c := [(Some (lit "doc"), mkEntry (lit "abc") false 0%Z)] in
  key_truthy (Some (lit "doc")) = true /\
  JSMap.get key_eqb (Some (lit "doc")) c = Some (mkEntry (lit "abc") false 0%Z) /\
  expired 0 (mkEntry (lit "abc") false 0%Z) = false /\
  (let L := N.of_nat (List.length (content (mkEntry (lit "abc") false 0%Z))) in
   List.concat (map response_content
     (snd (fetch_segments 0 (Some (lit "doc")) (map seg_index (segments L)) c)))
   = content (mkEntry (lit "abc") false 0%Z)).
Proof.
  intros c.
  assert (H1 : key_truthy (Some (lit "doc")) = true) by reflexivity.
  assert (H2 : JSMap.get key_eqb (Some (lit "doc")) c = Some (mkEntry (lit "abc") false 0%Z))
    by reflexivity.
  assert (H3 : expired 0 (mkEntry (lit "abc") false 0%Z) = false) by reflexivity.
  split; [exact H1|]. split; [exact H2|]. split; [exact H3|].
  exact (proj1 (proj2 (proj2 (segments_reassemble c _ _ 0 H1 H2 H3)))).
Defined.
End SegmentFacts.

Module ExtractFacts.
Import Cache Segments Extract CacheFacts.

Lemma ocr_stage_not_scanned vision runOCR now url text pc c :
  isScannedPDF pc text && vision = false ->
  ocr_stage vision runOCR now url text pc c = inl (c, text, false).
Proof. intros H. unfold ocr_stage. rewrite H. reflexivity. Qed.

Lemma ocr_stage_inr vision runOCR now url text pc c c1 r :
  ocr_stage vision runOCR now url text pc c = inr (c1, r) ->
  r = ScannedTooLarge pc text.
Proof.
  unfold ocr_stage.
  destruct (isScannedPDF pc text && vision); [|discriminate].
  destruct (getCachedPdfContent now url c) as [c0 cd].
  destruct (match cd with Some e => if isOCR e then Some e else None | None => None end);
    [discriminate|].
  destruct (30 <? pc); [congruence|].
  destruct (runOCR pc); discriminate.
Qed.

(** ** C8 *)
(** C8 (counterexample): a one-page scanned PDF with no extractable text,
    OCR configured, whose OCR text is short: the content is returned
    directly (it is far below [SEGMENT_SIZE]), yet the cache, empty
    before, now holds the OCR text under the document URL. *)
Lemma extract_small_ocr_cached :
  let res := extract_pdf true (fun _ => Some (lit "Scanned page text"))
               0 (Some (lit "https://example.org/a.pdf")) None [] 1 [] in
  snd res = Content (lit "Scanned page text") (Some (lit "https://example.org/a.pdf")) true /\
  (N.of_nat (List.length (lit "Scanned page text")) <= SEGMENT_SIZE)%N /\
  fst res = [(Some (lit "https://example.org/a.pdf"),
              mkEntry (lit "Scanned page text") true 0%Z)] /\
  fst res <> [].
Proof. vm_compute. repeat split; discriminate. Qed.

Lemma get_set_other (u k : key) v (m : cache) :
  key_eqb u k = false -> JSMap.get key_eqb u (JSMap.set key_eqb k v m) = JSMap.get key_eqb u m.
Proof.
  intros Hk. induction m as [|[k' v'] m IH]; cbn [JSMap.set JSMap.get].
  - rewrite Hk. reflexivity.
  - destruct (key_eqb k k') eqn:E; cbn [JSMap.get].
    + apply key_eqb_spec in E. subst k'. rewrite Hk. reflexivity.
    + destruct (key_eqb u k'); [reflexivity | exact IH].
Qed.

Lemma get_delete_other (u k : key) (m : cache) :
  key_eqb u k = false -> JSMap.get key_eqb u (JSMap.delete key_eqb k m) = JSMap.get key_eqb u m.
Proof.
  intros Hk. induction m as [|[k' v'] m IH]; cbn [JSMap.delete JSMap.get]; [reflexivity|].
  destruct (key_eqb k k') eqn:E; cbn [JSMap.get].
  - apply key_eqb_spec in E. subst k'. rewrite Hk. reflexivity.
  - destruct (key_eqb u k'); [reflexivity | exact IH].
Qed.

Lemma get_sweep_live now (u : key) (c : cache) e :
  JSMap.get key_eqb u c = Some e -> expired now e = false ->
  JSMap.get key_eqb u (sweep now c) = Some e.
Proof.
  unfold sweep. induction c as [|[k v] c IH]; cbn [JSMap.get filter snd]; [discriminate|].
  destruct (key_eqb u k) eqn:E.
  - intros Hg He. injection Hg as <-. rewrite He. cbn [negb JSMap.get]. rewrite E. reflexivity.
  - intros Hg He. destruct (negb (expired now v)); cbn [JSMap.get];
      [rewrite E|]; apply IH; assumption.
Qed.

Lemma get_put_same now (u : key) x o (c : cache) :
  JSMap.get key_eqb u (cachePdfContent now u x o c) = Some (mkEntry x o now).
Proof. unfold cachePdfContent. apply (JSMapFacts.get_set_same key_eqb key_eqb_spec). Qed.

Lemma fresh_not_expired now x o : expired now (mkEntry x o now) = false.
Proof. unfold expired. cbn [timestamp]. rewrite Z.sub_diag. reflexivity. Qed.

(** A write under another key never removes the entry of a falsy key: the
    eviction only deletes truthy keys. *)
Lemma get_put_falsy_other now (k u : key) x o (c : cache) e :
  key_truthy u = false -> key_eqb u k = false ->
  JSMap.get key_eqb u c = Some e -> expired now e = false ->
  JSMap.get key_eqb u (cachePdfContent now k x o c) = Some e.
Proof.
  intros Hu Hk Hg He. unfold cachePdfContent. rewrite get_set_other by exact Hk.
  pose proof (get_sweep_live now u c e Hg He) as Hs.
  destruct (_ && _); [|exact Hs].
  destruct (oldest_scan _ _ _) as [k'|]; [|exact Hs].
  destruct (key_truthy k') eqn:Ek'; [|exact Hs].
  rewrite get_delete_other; [exact Hs|].
  destruct (key_eqb u k') eqn:E; [|reflexivity].
  apply key_eqb_spec in E. subst k'. congruence.
Qed.

Lemma local_key_not_falsy (u : key) title t :
  key_truthy u = false -> key_eqb u (Some (local_key title t)) = false.
Proof.
  destruct u as [[|a s]|]; cbn [key_truthy str_truthy]; try discriminate; [|reflexivity].
  intros _. cbn [key_eqb].
  destruct (list_eq_dec ascii_dec [] (local_key title t)) as [E|E]; [|reflexivity].
  unfold local_key in E. discriminate E.
Qed.

(** Where the final text of the OCR stage comes from. *)
Lemma ocr_stage_text vision runOCR now url text pc c c2 t u :
  ocr_stage vision runOCR now url text pc c = inl (c2, t, u) ->
  (u = false -> t = text) /\
  (u = true -> runOCR pc = Some t \/
     exists e, snd (getCachedPdfContent now url c) = Some e /\ isOCR e = true /\ content e = t).
Proof.
  unfold ocr_stage. destruct (isScannedPDF pc text && vision).
  2:{ intros H. injection H as <- <- <-. split; [reflexivity | discriminate]. }
  destruct (getCachedPdfContent now url c) as [c1 cd] eqn:Eg.
  intros H. cbv beta iota in H.
  destruct cd as [e|].
  - destruct (isOCR e) eqn:Eo; cbv beta iota in H.
    + injection H as <- <- <-. split; [discriminate|]. intros _. right.
      exists e. cbn [snd]. split; [reflexivity|]. split; [exact Eo | reflexivity].
    + destruct (30 <? pc); [discriminate|]. destruct (runOCR pc) as [t'|] eqn:Er.
      * injection H as <- <- <-. split; [discriminate|]. intros _. left. reflexivity.
      * injection H as <- <- <-. split; [reflexivity | discriminate].
  - destruct (30 <? pc); [discriminate|]. destruct (runOCR pc) as [t'|] eqn:Er.
    + injection H as <- <- <-. split; [discriminate|]. intros _. left. reflexivity.
    + injection H as <- <- <-. split; [reflexivity | discriminate].
Qed.

(** C8 (amended): a document that is not routed through OCR (not detected
    as scanned, or OCR not configured) and whose text is at most
    [SEGMENT_SIZE] long is returned as content and leaves the cache
    unchanged; in every case a content response carries at most
    [SEGMENT_SIZE] characters, and a segmentation response is only given
    for a final text longer than [SEGMENT_SIZE], which is then stored in
    the cache under the returned key with the returned OCR flag (the
    extracted text when the flag is off, the OCR text or the cached OCR
    content when it is on).  A scanned document routed through OCR reads
    the cache: a live OCR entry for its URL supplies the text; otherwise
    the OCR text, once produced, is stored under the URL whatever its
    length. *)
Theorem extract_segmentation_decision vision runOCR now url title text pc c :
  (isScannedPDF pc text && vision = false ->
   (N.of_nat (List.length text) <= SEGMENT_SIZE)%N ->
   extract_pdf vision runOCR now url title text pc c =
     (c, Content text (if key_truthy url then url else Some (local_key title text)) false)) /\
  match extract_pdf vision runOCR now url title text pc c with
  | (_, Content t _ _) => (N.of_nat (List.length t) <= SEGMENT_SIZE)%N
  | (c', Segmented L segs k ocr) =>
      (SEGMENT_SIZE < L)%N /\ segs = segments L /\
      exists t, JSMap.get key_eqb k c' = Some (mkEntry t ocr now) /\
                N.of_nat (List.length t) = L /\
                (ocr = false -> t = text) /\
                (ocr = true -> runOCR pc = Some t \/
                   exists e, snd (getCachedPdfContent now url c) = Some e /\
                             isOCR e = true /\ content e = t)
  | (_, ScannedTooLarge _ _) => True
  end /\
  (forall t, isScannedPDF pc text && vision = true ->
     (forall e, snd (getCachedPdfContent now url c) = Some e -> isOCR e = false) ->
     pc <= 30 -> runOCR pc = Some t ->
     JSMap.get key_eqb url (fst (extract_pdf vision runOCR now url title text pc c)) =
       Some (mkEntry t true now) /\
     snd (extract_pdf vision runOCR now url title text pc c) =
       (let k := if key_truthy url then url else Some (local_key title t) in
        let L := N.of_nat (List.length t) in
        if (SEGMENT_SIZE <? L)%N then Segmented L (segments L) k true else Content t k true)) /\
  (forall e, isScannedPDF pc text && vision = true ->
     snd (getCachedPdfContent now url c) = Some e -> isOCR e = true ->
     snd (extract_pdf vision runOCR now url title text pc c) =
       (let k := if key_truthy url then url else Some (local_key title (content e)) in
        let L := N.of_nat (List.length (content e)) in
        if (SEGMENT_SIZE <? L)%N then Segmented L (segments L) k true
        else Content (content e) k true)).
Proof.
  split; [|split; [|split]].
  - intros Hns Hlen. unfold extract_pdf. rewrite ocr_stage_not_scanned by exact Hns.
    destruct (N.ltb_spec SEGMENT_SIZE (N.of_nat (List.length text))); [lia|].
    reflexivity.
  - unfold extract_pdf.
    destruct (ocr_stage vision runOCR now url text pc c) as [[[c2 t] u]|[c1 r]] eqn:Est.
    + destruct (N.ltb_spec SEGMENT_SIZE (N.of_nat (List.length t))) as [Hlt|Hge].
      * split; [exact Hlt|]. split; [reflexivity|].
        exists t. split; [apply get_put_same|]. split; [reflexivity|].
        exact (ocr_stage_text _ _ _ _ _ _ _ _ _ _ Est).
      * exact Hge.
    + apply ocr_stage_inr in Est. subst r. exact I.
  - intros t Hsv Hmiss Hpc Hr. unfold extract_pdf, ocr_stage. rewrite Hsv.
    destruct (getCachedPdfContent now url c) as [c1 cd] eqn:Eg. cbn [snd] in Hmiss.
    assert (Hlt : (30 <? pc) = false) by (apply Nat.ltb_ge; exact Hpc).
    assert (Hst : (let ocrHit := match cd with
                                 | Some e => if isOCR e then Some e else None
                                 | None => None end in
                   match ocrHit with
                   | Some e => inl (c1, content e, true)
                   | None => if 30 <? pc then inr (c1, ScannedTooLarge pc text) else
                             match runOCR pc with
                             | Some t => inl (cachePdfContent now url t true c1, t, true)
                             | None => inl (c1, text, false)
                             end
                   end) = inl (cachePdfContent now url t true c1, t, true)).
    { destruct cd as [e|]; [rewrite (Hmiss e eq_refl)|]; cbv beta iota zeta;
        rewrite Hlt, Hr; reflexivity. }
    cbv beta iota zeta. cbv beta iota zeta in Hst. rewrite Hst.
    destruct (key_truthy url) eqn:Eu;
      destruct (SEGMENT_SIZE <? N.of_nat (List.length t))%N; cbn [fst snd];
      (split; [|reflexivity]); try apply get_put_same.
    apply get_put_falsy_other; [exact Eu | apply local_key_not_falsy, Eu | apply get_put_same
                               | apply fresh_not_expired].
  - intros e Hsv Hhit Ho. unfold extract_pdf, ocr_stage. rewrite Hsv.
    destruct (getCachedPdfContent now url c) as [c1 cd] eqn:Eg. cbn [snd] in Hhit. subst cd.
    rewrite Ho. cbv beta iota zeta.
    destruct (SEGMENT_SIZE <? N.of_nat (List.length (content e)))%N; reflexivity.
Qed.

Lemma extract_segmentation_decision_witness :
  (isScannedPDF 2 (lit "Plain text PDF") && false = false /\
   (N.of_nat (List.length (lit "Plain text PDF")) <= SEGMENT_SIZE)%N /\
   extract_pdf false (fun _ => None) 0 (Some (lit "u")) None (lit "Plain text PDF") 2 [] =
     ([], Content (lit "Plain text PDF") (Some (lit "u")) false)) /\
  (isScannedPDF 1 [] && true = true /\
   (forall e, snd (getCachedPdfContent 0 (Some (lit "u")) []) = Some e -> isOCR e = false) /\
   1 <= 30 /\
   JSMap.get key_eqb (Some (lit "u"))
     (fst (extract_pdf true (fun _ => Some (lit "OCR text")) 0 (Some (lit "u")) None [] 1 [])) =
     Some (mkEntry (lit "OCR text") true 0) /\
   snd (extract_pdf true (fun _ => Some (lit "OCR text")) 0 (Some (lit "u")) None [] 1 []) =
     Content (lit "OCR text") (Some (lit "u")) true).
Proof.
  assert (H1 : isScannedPDF 2 (lit "Plain text PDF") && false = false)
    by (rewrite andb_false_r; reflexivity).
  assert (H2 : (N.of_nat (List.length (lit "Plain text PDF")) <= SEGMENT_SIZE)%N)
    by (vm_compute; discriminate).
  assert (H3 : isScannedPDF 1 [] && true = true) by (vm_compute; reflexivity).
  assert (H4 : forall e, snd (getCachedPdfContent 0 (Some (lit "u")) []) = Some e ->
                         isOCR e = false) by (intros e; vm_compute; discriminate).
  assert (H5 : 1 <= 30) by lia.
  pose proof (extract_segmentation_decision false (fun _ => None) 0 (Some (lit "u")) None
                (lit "Plain text PDF") 2 []) as Ta.
  pose proof (extract_segmentation_decision true (fun _ => Some (lit "OCR text")) 0
                (Some (lit "u")) None [] 1 []) as Tc.
  destruct (proj1 (proj2 (proj2 Tc)) (lit "OCR text") H3 H4 H5 eq_refl) as [Hg Hs].
  split.
  - split; [exact H1|]. split; [exact H2|]. exact (proj1 Ta H1 H2).
  - split; [exact H3|]. split; [exact H4|]. split; [exact H5|]. split; [exact Hg|].
    rewrite Hs. vm_compute. reflexivity.
Defined.
End ExtractFacts.

Module OCRFacts.
Import Text OCR.

Definition group_count (N : nat) : nat := (N + 4) / 5.

Lemma group_in_range (j N : nat) : 1 + 5 * j <= N <-> j < group_count N.
Proof.
  unfold group_count.
  pose proof (Nat.div_mod (N + 4) 5 ltac:(discriminate)).
  pose proof (Nat.mod_upper_bound (N + 4) 5 ltac:(discriminate)).
  remember ((N + 4) / 5) as q. remember ((N + 4) mod 5) as r.
  lia.
Qed.

Lemma group_count_le (N : nat) : group_count N <= N.
Proof.
  unfold group_count.
  pose proof (Nat.div_mod (N + 4) 5 ltac:(discriminate)).
  pose proof (Nat.mod_upper_bound (N + 4) 5 ltac:(discriminate)).
  remember ((N + 4) / 5) as q. remember ((N + 4) mod 5) as r.
  lia.
Qed.

Definition group_of (N g : nat) : list nat := seq (1 + 5 * g) (Nat.min 5 (N - 5 * g)).

Lemma chunks_from_closed (N fuel j i : nat) :
  i = 1 + 5 * j -> group_count N - j <= fuel ->
  chunks_from fuel i N = map (group_of N) (seq j (group_count N - j)).
Proof.
  revert j i. induction fuel as [|fuel IH]; intros j i Hi Hf.
  - replace (group_count N - j) with 0 by lia. reflexivity.
  - cbn [chunks_from]. destruct (Nat.leb_spec i N) as [Hle|Hgt].
    + assert (Hj : j < group_count N) by (apply group_in_range; lia).
      replace (group_count N - j) with (S (group_count N - S j)) by lia.
      cbn [seq map]. f_equal.
      * unfold page_range, group_of, PAGES_PER_REQUEST. subst i. f_equal. lia.
      * apply IH; unfold PAGES_PER_REQUEST; lia.
    + assert (~ j < group_count N) by (rewrite <- group_in_range; lia).
      replace (group_count N - j) with 0 by lia. reflexivity.
Qed.

Lemma chunks_closed (N : nat) :
  chunks N = map (group_of N) (seq 0 (group_count N)).
Proof.
  unfold chunks. rewrite (chunks_from_closed N N 0 1); try lia.
  - rewrite Nat.sub_0_r. reflexivity.
  - pose proof (group_count_le N). lia.
Qed.

Lemma concat_groups (N k j : nat) :
  k = group_count N - j ->
  List.concat (map (group_of N) (seq j k)) = seq (1 + 5 * j) (N - 5 * j).
Proof.
  revert j. induction k as [|k IH]; intros j Hk.
  - assert (~ j < group_count N) by lia. rewrite <- group_in_range in H.
    replace (N - 5 * j) with 0 by lia. reflexivity.
  - assert (Hj : j < group_count N) by lia. apply group_in_range in Hj.
    change (seq j (S k)) with (j :: seq (S j) k).
    rewrite map_cons, concat_cons, (IH (S j)) by lia.
    unfold group_of.
    transitivity (seq (1 + 5 * j) (Nat.min 5 (N - 5 * j) + (N - 5 * S j)));
      [|f_equal; lia].
    rewrite seq_app. f_equal.
    destruct (Nat.le_gt_cases 5 (N - 5 * j)).
    + f_equal. lia.
    + replace (N - 5 * S j) with 0 by lia. reflexivity.
Qed.

Section Join.

Lemma list_set_length {A} (l : list A) n x : List.length (list_set l n x) = List.length l.
Proof. revert n; induction l as [|y l IH]; intros [|n]; simpl; try rewrite IH; reflexivity. Qed.

Lemma nth_list_set {A} (l : list A) n x j d :
  j < List.length l -> nth j (list_set l n x) d = if j =? n then x else nth j l d.
Proof.
  revert n j; induction l as [|y l IH]; intros [|n] [|j] Hj; simpl in *; try lia;
    try reflexivity.
  apply IH. lia.
Qed.

Definition fill (ps : list (option chunk_result)) (completion : list nat)
    (slots : list (option chunk_result)) :=
  fold_left (fun sl j => list_set sl j (nth j ps None)) completion slots.

Lemma settle_all_some (ps : list (option chunk_result)) completion slots :
  (forall j, In j completion -> nth j ps None <> None) ->
  settle completion ps slots = Some (fill ps completion slots).
Proof.
  revert slots. induction completion as [|j rest IH]; intros slots H; [reflexivity|].
  simpl. destruct (nth j ps None) as [r|] eqn:E.
  - rewrite <- E. apply IH. intros j' Hj'. apply H. right. exact Hj'.
  - exfalso. apply (H j); [left; reflexivity | exact E].
Qed.

Lemma fill_length ps completion slots :
  List.length (fill ps completion slots) = List.length slots.
Proof.
  unfold fill. revert slots. induction completion as [|j rest IH]; intros slots;
    [reflexivity|]. simpl. rewrite IH. apply list_set_length.
Qed.

Lemma nth_fill ps completion slots j :
  j < List.length slots ->
  nth j (fill ps completion slots) None =
  if in_dec Nat.eq_dec j completion then nth j ps None else nth j slots None.
Proof.
  unfold fill. revert slots. induction completion as [|k rest IH]; intros slots Hj;
    [reflexivity|].
  cbn [fold_left]. rewrite IH by (rewrite list_set_length; exact Hj).
  rewrite nth_list_set by exact Hj.
  destruct (in_dec Nat.eq_dec j rest), (Nat.eqb_spec j k),
           (in_dec Nat.eq_dec j (k :: rest)); subst;
    first [reflexivity | exfalso; simpl in *; intuition congruence].
Qed.

Definition somes (ps : list (option chunk_result)) : list chunk_result :=
  flat_map (fun o => match o with Some r => [r] | None => [] end) ps.

Lemma somes_map (ps : list (option chunk_result)) :
  (forall o, In o ps -> o <> None) -> ps = map Some (somes ps).
Proof.
  induction ps as [|[r|] ps IH]; intros H; simpl; [reflexivity| |].
  - f_equal. apply IH. intros o Ho. apply H. right. exact Ho.
  - exfalso. apply (H None); [left; reflexivity | reflexivity].
Qed.

Lemma promise_all_perm (rs : list chunk_result) completion :
  Permutation completion (seq 0 (List.length rs)) ->
  promise_all completion (map Some rs) = Some rs.
Proof.
  intros Hp. unfold promise_all.
  assert (Hin : forall j, In j completion <-> j < List.length rs).
  { intros j. transitivity (In j (seq 0 (List.length rs))); [|rewrite in_seq; lia]. split.
    - apply Permutation_in, Hp.
    - apply Permutation_in, Permutation_sym, Hp. }
  rewrite settle_all_some.
  2:{ intros j Hj. apply Hin in Hj.
      rewrite nth_indep with (d' := Some (mkChunk 0 [] [])) by (rewrite length_map; exact Hj).
      rewrite map_nth. discriminate. }
  assert (Hf : fill (map Some rs) completion (repeat None (List.length (map Some rs)))
               = map Some rs).
  { apply nth_ext with (d := None) (d' := None).
    - rewrite fill_length, repeat_length. reflexivity.
    - intros n Hn. rewrite fill_length, repeat_length in Hn.
      rewrite nth_fill by (rewrite repeat_length; exact Hn).
      rewrite length_map in Hn.
      destruct (in_dec Nat.eq_dec n completion) as [_|Hni]; [reflexivity|].
      exfalso. apply Hni, Hin. exact Hn. }
  rewrite Hf.
  replace (forallb _ (map Some rs)) with true
    by (symmetry; apply forallb_forall; intros o Ho; apply in_map_iff in Ho;
        destruct Ho as [r [<- _]]; reflexivity).
  f_equal. induction rs as [|r rs IH]; [reflexivity|]. simpl. f_equal.
  clear. induction rs; simpl; f_equal; assumption.
Qed.
End Join.

Lemma sort_by_index_sorted (l : list chunk_result) :
  StronglySorted (fun a b => chunkIndex a < chunkIndex b) l -> sort_by_index l = l.
Proof.
  induction l as [|r l IH]; intros Hs; [reflexivity|].
  inversion Hs as [|? ? Hs' Hall]; subst. cbn [sort_by_index]. rewrite IH by exact Hs'.
  destruct l as [|y l]; [reflexivity|].
  inversion Hall as [|? ? Hry _]; subst. cbn [insert_by_index].
  destruct (Nat.ltb_spec (chunkIndex y) (chunkIndex r)); [lia | reflexivity].
Qed.

Lemma indices_sorted (l : list chunk_result) (j : nat) :
  map chunkIndex l = seq j (List.length l) ->
  StronglySorted (fun a b => chunkIndex a < chunkIndex b) l.
Proof.
  revert j. induction l as [|r l IH]; intros j H; constructor.
  - simpl in H. injection H as Hr Hl. apply (IH (S j)), Hl.
  - simpl in H. injection H as Hr Hl. apply Forall_forall. intros y Hy.
    assert (Hin : In (chunkIndex y) (seq (S j) (List.length l)))
      by (rewrite <- Hl; apply in_map, Hy).
    apply in_seq in Hin. lia.
Qed.

Section Chunks.
Variable batchAnnotate : list nat -> vision_reply.

Definition run_all (j : nat) (gs : list (list nat)) : list (option chunk_result) :=
  map (fun p => run_chunk batchAnnotate (fst p) (snd p)) (combine (seq j (List.length gs)) gs).

Lemma run_all_ok (gs : list (list nat)) (j : nat) :
  (forall g, In g gs -> batchAnnotate g <> VisionRejected) ->
  (forall o, In o (run_all j gs) -> o <> None) /\
  map chunkIndex (somes (run_all j gs)) = seq j (List.length gs) /\
  map pageRange (somes (run_all j gs)) = gs.
Proof.
  revert j. induction gs as [|g gs IH]; intros j Hok; [simpl; tauto|].
  destruct (IH (S j)) as [H1 [H2 H3]]; [intros g' Hg'; apply Hok; right; exact Hg'|].
  unfold run_all in *. cbn [List.length seq combine map].
  assert (Hg : batchAnnotate g <> VisionRejected) by (apply Hok; left; reflexivity).
  assert (Hrc : exists r, run_chunk batchAnnotate j g = Some r /\
                          chunkIndex r = j /\ pageRange r = g).
  { unfold run_chunk. destruct (batchAnnotate g); [congruence|].
    eexists; split; [reflexivity | split; reflexivity]. }
  destruct Hrc as [r [Hr [Hri Hrp]]].
  cbn [fst snd]. rewrite Hr.
  cbn [somes flat_map app map].
  fold (somes (map (fun p => run_chunk batchAnnotate (fst p) (snd p))
                  (combine (seq (S j) (List.length gs)) gs))).
  split; [|split].
  - intros o [Ho|Ho]; [subst; discriminate | apply H1, Ho].
  - f_equal; assumption.
  - f_equal; assumption.
Qed.
End Chunks.

(** ** C9 *)
(** C9: for every page count [N] (the claim takes [N >= 1]; [N = 0] gives no
    group) the orchestrator partitions pages [1..N] into [ceil(N/5)]
    groups of consecutive pages, each of 1 to [PAGES_PER_REQUEST = 5]
    pages, whose concatenation is [1..N] (each page exactly once); it
    issues one request per group, and when all requests succeed, for every
    order in which they complete, the joined text is the group texts in
    ascending group index. *)
Theorem ocr_fanout (batchAnnotate : list nat -> vision_reply) (N : nat)
    (completion : list nat)
    (Hok : forall g, In g (chunks N) -> batchAnnotate g <> VisionRejected)
    (Hperm : Permutation completion (seq 0 (List.length (chunks N)))) :
  let gs := chunks N in
  List.length gs = group_count N /\
  List.concat gs = seq 1 N /\
  Forall (fun g => 1 <= List.length g <= PAGES_PER_REQUEST /\
                   g = seq (hd 0 g) (List.length g)) gs /\
  exists rs,
    run_all batchAnnotate 0 gs = map Some rs /\
    map chunkIndex rs = seq 0 (List.length gs) /\
    map pageRange rs = gs /\
    extractPDFTextOCR batchAnnotate true N completion =
      (gs, Some (clean_text (join [" "%char] (map text rs)), N)).
Proof.
  intros gs.
  split; [unfold gs; rewrite chunks_closed, length_map, length_seq; reflexivity|].
  split; [unfold gs; rewrite chunks_closed, (concat_groups N _ 0) by lia;
          rewrite Nat.mul_0_r, Nat.sub_0_r; reflexivity|].
  split.
  { unfold gs. rewrite chunks_closed. apply Forall_forall. intros g Hg.
    apply in_map_iff in Hg. destruct Hg as [i [<- Hi]]. apply in_seq in Hi.
    assert (Hr : 1 + 5 * i <= N) by (apply group_in_range; lia).
    unfold group_of, PAGES_PER_REQUEST. rewrite length_seq. split; [lia|].
    destruct (Nat.min 5 (N - 5 * i)) eqn:Em; [lia|]. reflexivity. }
  destruct (run_all_ok batchAnnotate gs 0 Hok) as [H1 [H2 H3]].
  exists (somes (run_all batchAnnotate 0 gs)).
  assert (Hps : run_all batchAnnotate 0 gs = map Some (somes (run_all batchAnnotate 0 gs)))
    by (apply somes_map, H1).
  assert (Hlen : List.length (somes (run_all batchAnnotate 0 gs)) = List.length gs)
    by (pose proof (f_equal (@List.length nat) H2) as E;
        rewrite length_map, length_seq in E; exact E).
  split; [exact Hps|]. split; [exact H2|]. split; [exact H3|].
  unfold extractPDFTextOCR. cbn [negb].
  fold gs. change (map _ (combine _ gs)) with (run_all batchAnnotate 0 gs).
  set (rs := somes (run_all batchAnnotate 0 gs)) in *.
  assert (Hperm' : Permutation completion (seq 0 (List.length rs)))
    by (rewrite Hlen; exact Hperm).
  rewrite Hps, (promise_all_perm rs completion Hperm').
  rewrite sort_by_index_sorted; [reflexivity|].
  apply (indices_sorted _ 0). rewrite Hlen. exact H2.
Qed.

Lemma ocr_fanout_witness :
  let ann := fun _ : list nat => VisionResponse (Some [Some (lit "page")]) in
  (forall g, In g (chunks 7) -> ann g <> VisionRejected) /\
  Permutation [1; 0] (seq 0 (List.length (chunks 7))) /\
  (List.length (chunks 7) = group_count 7 /\
   List.concat (chunks 7) = seq 1 7 /\
   Forall (fun g => 1 <= List.length g <= PAGES_PER_REQUEST /\
                    g = seq (hd 0 g) (List.length g)) (chunks 7) /\
   exists rs,
     run_all ann 0 (chunks 7) = map Some rs /\
     map chunkIndex rs = seq 0 (List.length (chunks 7)) /\
     map pageRange rs = chunks 7 /\
     extractPDFTextOCR ann true 7 [1; 0] =
       (chunks 7, Some (clean_text (join [" "%char] (map text rs)), 7))).
Proof.
  intros ann.
  assert (H1 : forall g, In g (chunks 7) -> ann g <> VisionRejected)
    by (intros g _; discriminate).
  assert (H2 : Permutation [1; 0] (seq 0 (List.length (chunks 7))))
    by (simpl; apply perm_swap).
  split; [exact H1|]. split; [exact H2|].
  exact (ocr_fanout ann 7 [1; 0] H1 H2).
Defined.

(** Two groups completing in reverse order still join in group order. *)
Example ocr_two_groups_reversed :
  extractPDFTextOCR (fun g => VisionResponse (Some (map (fun p => Some [ascii_of_nat (48 + p)]) g)))
    true 7 [1; 0] =
    ([[1; 2; 3; 4; 5]; [6; 7]], Some (lit "1 2 3 4 5 6 7", 7)).
Proof. vm_compute. reflexivity. Qed.
End OCRFacts.

Module RankFacts.
Import Text Rank.

Lemma js_slice0_idem (s : str) (n : N) : js_slice0 (js_slice0 s n) n = js_slice0 s n.
Proof.
  revert n. induction s as [|ch s IH]; intros n; [reflexivity|].
  cbn [js_slice0]. destruct (n =? 0)%N eqn:E; [reflexivity|].
  cbn [js_slice0]. rewrite E, IH. reflexivity.
Qed.

Lemma js_slice0_truthy (s : str) (n : N) :
  n <> 0%N -> str_truthy (js_slice0 s n) = str_truthy s.
Proof.
  intros Hn. destruct s as [|ch s]; [reflexivity|]. cbn [js_slice0].
  destruct (N.eqb_spec n 0); [contradiction | reflexivity].
Qed.

(** ** C10 *)
(** C10: the handler only looks at the first [MAX_CHARS = 50000]
    characters of the page content: its outcome on a content equals its
    outcome on that content's 50,000-character prefix, for every topic
    and whatever the fuzzy matcher and the HTML parser do. *)
Theorem find_quotes_prefix (fuse_search : list str -> str -> list fuse_result)
    (cheerio_body_text : str -> option str) (topic pageContent : str) :
  find_quotes fuse_search cheerio_body_text topic pageContent =
  find_quotes fuse_search cheerio_body_text topic (js_slice0 pageContent MAX_CHARS).
Proof.
  unfold find_quotes, page_sentences.
  rewrite js_slice0_truthy by discriminate.
  rewrite js_slice0_idem. reflexivity.
Qed.

Lemma in_score_all topic ss sr e :
  In e (score_all topic ss sr) ->
  In (sentence e) ss /\ keywordHits e = keyword_hits topic (sentence e).
Proof.
  unfold score_all. intros H. apply in_map_iff in H.
  destruct H as [[i s] [<- Hin]]. cbn [fst snd].
  apply in_combine_r in Hin. split; [exact Hin | reflexivity].
Qed.

(** ** C1 *)
(** C1: when no sentence of the page contains a topic keyword and the
    fuzzy search returns no match, the handler answers with an empty quote
    list and never calls the refinement model (a request with an empty
    topic or content is rejected before any scoring). *)
Theorem no_signal_no_model (fuse_search : list str -> str -> list fuse_result)
    (cheerio_body_text : str -> option str) (topic pageContent : str)
    (Hkw : forall s, In s (page_sentences cheerio_body_text pageContent) ->
                     keyword_hits topic s = 0)
    (Hfz : fuse_search (page_sentences cheerio_body_text pageContent) topic = []) :
  find_quotes fuse_search cheerio_body_text topic pageContent =
  if str_truthy topic && str_truthy pageContent then NoQuotes else BadRequest.
Proof.
  unfold find_quotes.
  destruct (str_truthy topic), (str_truthy pageContent); cbn [negb orb andb];
    try reflexivity.
  unfold select. rewrite Hfz.
  replace (existsb _ _) with false; [reflexivity|].
  symmetry. apply Bool.not_true_iff_false. rewrite existsb_exists.
  intros [e [He Hpos]]. apply in_score_all in He. destruct He as [Hs Hk].
  rewrite Hk, (Hkw _ Hs) in Hpos. discriminate.
Qed.

Lemma no_signal_no_model_witness :
  let fz := fun (_ : list str) (_ : str) => @nil fuse_result in
  let ch := fun _ : str => @None str in
  let page := lit "Nothing here mentions the subject at all. It is only filler text for testing." in
  (forall s, In s (page_sentences ch page) -> keyword_hits (lit "zebra") s = 0) /\
  fz (page_sentences ch page) (lit "zebra") = [] /\
  find_quotes fz ch (lit "zebra") page = NoQuotes.
Proof.
  intros fz ch page.
  assert (H1 : forall s, In s (page_sentences ch page) -> keyword_hits (lit "zebra") s = 0).
  { intros s Hs. vm_compute in Hs.
    destruct Hs as [<-|[<-|[]]]; vm_compute; reflexivity. }
  assert (H2 : fz (page_sentences ch page) (lit "zebra") = []) by reflexivity.
  split; [exact H1|]. split; [exact H2|].
  exact (no_signal_no_model fz ch (lit "zebra") page H1 H2).
Defined.

(** *** Context-window expansion *)

Lemma memZ_spec (x : Z) (l : list Z) : memZ x l = true <-> In x l.
Proof.
  unfold memZ. rewrite existsb_exists. split.
  - intros [y [Hy Heq]]. apply Z.eqb_eq in Heq. subst. exact Hy.
  - intros H. exists x. split; [exact H | apply Z.eqb_refl].
Qed.

Lemma memZ_false (x : Z) (l : list Z) : memZ x l = false <-> ~ In x l.
Proof. rewrite <- memZ_spec. destruct (memZ x l); intuition congruence. Qed.

Definition near (e : scored) (x : Z) : Prop :=
  (x = Z.of_nat (idx e) \/ x = Z.of_nat (idx e) - 1 \/ x = Z.of_nat (idx e) + 1)%Z.

(** The state of the loop after the candidates [D]: [picked] has no
    duplicate, holds the same indices as [usedIdx], stays in [[0, n)] and
    only holds candidates and their neighbours. *)
Definition pick_core (n : Z) (D : list scored) (st : list Z * list Z) : Prop :=
  NoDup (fst st) /\ (forall x, In x (fst st) <-> In x (snd st)) /\
  Forall (fun x => 0 <= x < n)%Z (fst st) /\
  (forall x, In x (fst st) -> exists e, In e D /\ near e x).

Lemma pick_core_weaken n D D' st :
  (forall e, In e D -> In e D') -> pick_core n D st -> pick_core n D' st.
Proof.
  intros HD (H1 & H2 & H3 & H4). repeat split; auto.
  - now apply H2.
  - now apply H2.
  - intros x Hx. destruct (H4 x Hx) as [e [He Hn]]. exists e. auto.
Qed.

Lemma pick_core_grow n D p u x :
  pick_core n D (p, u) -> ~ In x u -> (0 <= x < n)%Z ->
  (exists e, In e D /\ near e x) ->
  pick_core n D (p ++ [x], x :: u).
Proof.
  intros (H1 & H2 & H3 & H4) Hx Hb Ho. cbn [fst snd] in *.
  assert (Hxp : ~ In x p) by (intros H; apply Hx, H2, H).
  repeat split.
  - apply Permutation_NoDup with (x :: p); [apply Permutation_cons_append|].
    constructor; assumption.
  - intros Hy. apply in_app_or in Hy. destruct Hy as [Hy|[<-|[]]];
      [right; apply H2, Hy | left; reflexivity].
  - intros [<-|Hy]; apply in_or_app; [right; left; reflexivity | left; apply H2, Hy].
  - apply Forall_app. split; [exact H3 | constructor; [exact Hb | constructor]].
  - intros y Hy. apply in_app_or in Hy. destruct Hy as [Hy|[<-|[]]]; auto.
Qed.

Lemma pick_step_core n D st e :
  pick_core n D st -> (Z.of_nat (idx e) < n)%Z ->
  pick_core n (D ++ [e]) (pick_step n st e).
Proof.
  intros Hc Hlt. destruct st as [p u].
  assert (HeD : In e (D ++ [e])) by (apply in_or_app; right; left; reflexivity).
  assert (Hw : pick_core n (D ++ [e]) (p, u))
    by (eapply pick_core_weaken; [|exact Hc]; intros; apply in_or_app; auto).
  unfold pick_step.
  destruct (memZ (Z.of_nat (idx e)) u) eqn:Em; [exact Hw|].
  apply memZ_false in Em.
  assert (G1 : pick_core n (D ++ [e]) (p ++ [Z.of_nat (idx e)], Z.of_nat (idx e) :: u)).
  { apply pick_core_grow; auto; [lia|]. exists e. split; [exact HeD | left; reflexivity]. }
  set (i := Z.of_nat (idx e)) in *.
  assert (Hlast : forall a b, pick_core n (D ++ [e]) (a, b) ->
    pick_core n (D ++ [e])
      (if (i + 1 <? n)%Z && negb (memZ (i + 1) b) then (a ++ [(i + 1)%Z], (i + 1)%Z :: b)
       else (a, b))).
  { intros a b Hab.
    destruct ((i + 1 <? n)%Z && negb (memZ (i + 1) b)) eqn:E2; [|exact Hab].
    apply andb_true_iff in E2. destruct E2 as [E2a E2b].
    apply Z.ltb_lt in E2a. apply negb_true_iff, memZ_false in E2b.
    apply pick_core_grow; auto; [lia|].
    exists e. split; [exact HeD | right; right; reflexivity]. }
  destruct ((0 <=? i - 1)%Z && negb (memZ (i - 1) (i :: u))) eqn:E1;
    apply Hlast; [|exact G1].
  apply andb_true_iff in E1. destruct E1 as [E1a E1b].
  apply Z.leb_le in E1a. apply negb_true_iff, memZ_false in E1b.
  apply pick_core_grow; auto; [lia|].
  exists e. split; [exact HeD | right; left; reflexivity].
Qed.

Ltac split_pick_ifs :=
  repeat match goal with
         | |- context [if ?c then _ else _] =>
             let E := fresh "E" in destruct c eqn:E; cbv beta iota
         end; cbn [fst snd].

Lemma pick_step_mono n st e x :
  (In x (fst st) -> In x (fst (pick_step n st e))) /\
  (In x (snd st) -> In x (snd (pick_step n st e))).
Proof.
  destruct st as [p u]. unfold pick_step. cbn [fst snd].
  split; intros H; split_pick_ifs; rewrite ?in_app_iff; cbn [In]; tauto.
Qed.

Lemma pick_step_used n st e :
  In (Z.of_nat (idx e)) (snd (pick_step n st e)) /\
  (memZ (Z.of_nat (idx e)) (snd st) = false ->
   ((0 <= Z.of_nat (idx e) - 1)%Z -> In (Z.of_nat (idx e) - 1)%Z (snd (pick_step n st e))) /\
   ((Z.of_nat (idx e) + 1 < n)%Z -> In (Z.of_nat (idx e) + 1)%Z (snd (pick_step n st e)))).
Proof.
  destruct st as [p u]. cbn [snd]. unfold pick_step.
  destruct (memZ (Z.of_nat (idx e)) u) eqn:Em.
  { split; [apply memZ_spec, Em | discriminate]. }
  set (i := Z.of_nat (idx e)).
  destruct ((0 <=? i - 1)%Z && negb (memZ (i - 1) (i :: u))) eqn:E1; cbv beta iota;
    match goal with
    | |- context [if ?c then _ else _] => destruct c eqn:E2
    end; cbn [snd];
    (split; [cbn [In]; tauto | intros _]); cbn [In];
    split; intros Hb;
    try solve [left; reflexivity | right; left; reflexivity | right; right; left; reflexivity];
    match goal with
    | E : _ && _ = false |- _ =>
        apply andb_false_iff in E; destruct E as [E|E];
        [rewrite ?Z.ltb_ge, ?Z.leb_gt in E; lia |
         apply negb_false_iff, memZ_spec in E; cbn [In] in E; tauto]
    end.
Qed.

Lemma pick_fold_core n es D st :
  pick_core n D st -> Forall (fun e => Z.of_nat (idx e) < n)%Z es ->
  pick_core n (D ++ es) (fold_left (pick_step n) es st).
Proof.
  revert D st. induction es as [|e es IH]; intros D st Hc Hb.
  - rewrite app_nil_r. exact Hc.
  - inversion Hb as [|? ? He Hes]; subst. cbn [fold_left].
    replace (D ++ e :: es) with ((D ++ [e]) ++ es) by (rewrite <- app_assoc; reflexivity).
    apply IH; [apply pick_step_core|]; assumption.
Qed.

Lemma pick_fold_mono n es st x :
  In x (snd st) -> In x (snd (fold_left (pick_step n) es st)).
Proof.
  revert st. induction es as [|e es IH]; intros st H; [exact H|].
  cbn [fold_left]. apply IH. apply pick_step_mono, H.
Qed.

Lemma pick_fold_used n es st e :
  In e es -> In (Z.of_nat (idx e)) (snd (fold_left (pick_step n) es st)).
Proof.
  revert st. induction es as [|e' es IH]; intros st H; [destruct H|].
  cbn [fold_left]. destruct H as [<-|H]; [|apply IH, H].
  apply pick_fold_mono, pick_step_used.
Qed.

Lemma pick_core_nil n : pick_core n [] ([], []).
Proof.
  repeat split; cbn [fst snd]; try (intros ? []); try constructor; tauto.
Qed.

Lemma pick_nodup (n : Z) (filtered : list scored) :
  Forall (fun e => Z.of_nat (idx e) < n)%Z filtered -> NoDup (pick n filtered).
Proof.
  intros Hb. apply (pick_fold_core n filtered [] ([], []) (pick_core_nil n) Hb).
Qed.

(** ** C4 *)
(** C4: for candidates whose indices lie below [n], the selected index
    list has no duplicate and lies in [[0, n)]; every candidate is
    selected, and every selected index is a candidate or one of its
    immediate neighbours; when a candidate is reached while not yet
    selected, its in-bounds predecessor and successor end up selected. *)
Theorem pick_context_window (n : Z) (filtered : list scored)
    (Hb : Forall (fun e => Z.of_nat (idx e) < n)%Z filtered) :
  NoDup (pick n filtered) /\
  Forall (fun x => 0 <= x < n)%Z (pick n filtered) /\
  (forall e, In e filtered -> In (Z.of_nat (idx e)) (pick n filtered)) /\
  (forall x, In x (pick n filtered) -> exists e, In e filtered /\ near e x) /\
  (forall pre e post, filtered = pre ++ e :: post ->
     ~ In (Z.of_nat (idx e)) (pick n pre) ->
     ((0 <= Z.of_nat (idx e) - 1)%Z -> In (Z.of_nat (idx e) - 1)%Z (pick n filtered)) /\
     ((Z.of_nat (idx e) + 1 < n)%Z -> In (Z.of_nat (idx e) + 1)%Z (pick n filtered))).
Proof.
  pose proof (pick_fold_core n filtered [] ([], []) (pick_core_nil n) Hb) as Hc.
  cbn [app] in Hc. destruct Hc as (H1 & H2 & H3 & H4). unfold pick.
  split; [exact H1|]. split; [exact H3|]. split.
  { intros e He. apply H2, pick_fold_used, He. }
  split; [exact H4|].
  intros pre e post -> Hnot.
  rewrite Forall_app in Hb. destruct Hb as [Hpre _].
  pose proof (pick_fold_core n pre [] ([], []) (pick_core_nil n) Hpre) as (_ & Hq & _).
  assert (Hm : memZ (Z.of_nat (idx e)) (snd (fold_left (pick_step n) pre ([], []))) = false).
  { apply memZ_false. intros Hin. apply Hnot. unfold pick. apply Hq, Hin. }
  destruct (proj2 (pick_step_used n _ e) Hm) as [Hl Hr].
  split; intros Hx; apply H2; rewrite fold_left_app; cbn [fold_left];
    apply pick_fold_mono; auto.
Qed.

Lemma pick_context_window_witness :
  let es := [mkScored [] 2 1 1 0 0 0; mkScored [] 3 1 1 0 0 0; mkScored [] 0 1 1 0 0 0] in
  Forall (fun e => Z.of_nat (idx e) < 5)%Z es /\ pick 5 es = [2; 1; 3; 0]%Z /\
  NoDup (pick 5 es).
Proof.
  intros es.
  assert (Hb : Forall (fun e => Z.of_nat (idx e) < 5)%Z es)
    by (repeat constructor; cbn; lia).
  split; [exact Hb|]. split; [vm_compute; reflexivity|].
  exact (proj1 (pick_context_window 5 es Hb)).
Defined.

(** *** Reading order of the candidates *)

Lemma insertZ_perm (x : Z) (l : list Z) : Permutation (insertZ x l) (x :: l).
Proof.
  induction l as [|y l IH]; cbn [insertZ]; [reflexivity|].
  destruct (y <? x)%Z; [|reflexivity].
  transitivity (y :: x :: l); [constructor; exact IH | constructor].
Qed.

Lemma sortZ_perm (l : list Z) : Permutation (sortZ l) l.
Proof.
  induction l as [|x l IH]; cbn [sortZ]; [reflexivity|].
  rewrite insertZ_perm. constructor. exact IH.
Qed.

Lemma insertZ_sorted (x : Z) (l : list Z) :
  StronglySorted Z.le l -> StronglySorted Z.le (insertZ x l).
Proof.
  induction l as [|y l IH]; intros Hs; cbn [insertZ].
  - repeat constructor.
  - apply StronglySorted_inv in Hs. destruct Hs as [Hs Hy].
    destruct (Z.ltb_spec y x).
    + constructor; [apply IH, Hs|].
      apply Forall_forall. intros z Hz.
      apply (Permutation_in _ (insertZ_perm x l)) in Hz.
      destruct Hz as [<-|Hz]; [lia | rewrite Forall_forall in Hy; apply Hy, Hz].
    + constructor; [constructor; assumption|].
      constructor; [lia|]. rewrite Forall_forall in *. intros z Hz.
      specialize (Hy z Hz). lia.
Qed.

Lemma sortZ_sorted (l : list Z) : StronglySorted Z.le (sortZ l).
Proof.
  induction l as [|x l IH]; cbn [sortZ]; [constructor | apply insertZ_sorted, IH].
Qed.

Lemma sorted_nodup_strict (l : list Z) :
  StronglySorted Z.le l -> NoDup l -> StronglySorted Z.lt l.
Proof.
  induction l as [|x l IH]; intros Hs Hn; [constructor|].
  apply StronglySorted_inv in Hs. destruct Hs as [Hs Hx].
  inversion Hn as [|? ? Hnx Hnl]; subst.
  constructor; [apply IH; assumption|].
  rewrite Forall_forall in *. intros z Hz.
  specialize (Hx z Hz). assert (z <> x) by (intros ->; contradiction). lia.
Qed.

Lemma strongly_sorted_filter (f : Z -> bool) (l : list Z) :
  StronglySorted Z.lt l -> StronglySorted Z.lt (filter f l).
Proof.
  induction l as [|x l IH]; intros Hs; cbn [filter]; [constructor|].
  apply StronglySorted_inv in Hs. destruct Hs as [Hs Hx].
  destruct (f x); [|apply IH, Hs].
  constructor; [apply IH, Hs|].
  rewrite Forall_forall in *. intros z Hz. apply filter_In in Hz.
  apply Hx, Hz.
Qed.

Definition kept (sentences : list str) (i : Z) : bool :=
  match sentence_at sentences i with Some s => str_truthy s | None => false end.

Lemma quotes_of_map (sentences : list str) (l : list Z) :
  quotes_of sentences l =
  map (fun i => nth (Z.to_nat i) sentences []) (filter (kept sentences) l).
Proof.
  induction l as [|i l IH]; [reflexivity|].
  unfold quotes_of in *. cbn [flat_map filter]. unfold kept at 1.
  destruct (sentence_at sentences i) as [s|] eqn:Es; [|exact IH].
  destruct (str_truthy s); [|exact IH].
  cbn [app map]. f_equal; [|exact IH].
  unfold sentence_at in Es. destruct (i <? 0)%Z; [discriminate|].
  symmetry. apply nth_error_nth, Es.
Qed.

Lemma kept_bounds (sentences : list str) (i : Z) :
  kept sentences i = true -> (0 <= i < Z.of_nat (List.length sentences))%Z.
Proof.
  unfold kept, sentence_at. destruct (Z.ltb_spec i 0); [discriminate|].
  destruct (nth_error sentences (Z.to_nat i)) eqn:E; [|discriminate].
  intros _. assert (Z.to_nat i < List.length sentences)
    by (apply nth_error_Some; rewrite E; discriminate). lia.
Qed.

Lemma insert_by_score_in e l x : In x (insert_by_score e l) -> x = e \/ In x l.
Proof.
  induction l as [|y l IH]; cbn [insert_by_score].
  - intros [<-|[]]; auto.
  - destruct (Qltb (score e) (score y)).
    + intros [<-|H]; [right; left; reflexivity|].
      destruct (IH H); [left; assumption | right; right; assumption].
    + intros [<-|H]; auto.
Qed.

Lemma sort_by_score_in l x : In x (sort_by_score l) -> In x l.
Proof.
  induction l as [|e l IH]; cbn [sort_by_score]; [auto|].
  intros H. destruct (insert_by_score_in _ _ _ H) as [<-|H'];
    [left; reflexivity | right; apply IH, H'].
Qed.

Lemma score_all_idx topic ss sr e :
  In e (score_all topic ss sr) -> idx e < List.length ss.
Proof.
  unfold score_all. intros H. apply in_map_iff in H.
  destruct H as [[i s] [<- Hin]]. cbn [fst snd score_sentence idx].
  apply in_combine_l, in_seq in Hin. lia.
Qed.

Lemma select_call fuse_search topic ss qs :
  select fuse_search topic ss = CallModel qs ->
  exists filtered,
    (forall e, In e filtered -> In e (score_all topic ss (fuse_search ss topic))) /\
    qs = quotes_of ss (sortZ (pick (Z.of_nat (List.length ss)) filtered)).
Proof.
  unfold select. cbv zeta.
  destruct (negb _ && negb _); [discriminate|].
  set (sorted := sort_by_score _).
  assert (Hs : forall e, In e sorted -> In e (score_all topic ss (fuse_search ss topic)))
    by (intros e; apply sort_by_score_in).
  set (filtered := match filter relevant sorted with
                   | [] => filter (fun e => Qltb 0%Q (score e)) sorted
                   | l => l end).
  assert (Hf : forall e, In e filtered -> In e sorted).
  { intros e. unfold filtered.
    destruct (filter relevant sorted) as [|a l] eqn:E;
      [intros H; apply filter_In in H; apply H |].
    intros H. rewrite <- E in H. apply filter_In in H. apply H. }
  intros Hcall. exists filtered. split; [auto|].
  destruct filtered as [|a l]; [discriminate|].
  destruct (quotes_of ss _) as [|q qs'] eqn:Eq; [discriminate|].
  injection Hcall as <-. reflexivity.
Qed.

(** ** C2 *)
(** C2: whenever the handler sends candidate quotes to the refinement
    model, they are sentences of the page listed at strictly increasing
    sentence indices, that is in reading order and without repetition. *)
Theorem candidates_reading_order (fuse_search : list str -> str -> list fuse_result)
    (cheerio_body_text : str -> option str) (topic pageContent : str) (qs : list str)
    (Hcall : find_quotes fuse_search cheerio_body_text topic pageContent = CallModel qs) :
  let ss := page_sentences cheerio_body_text pageContent in
  exists idxs : list Z,
    StronglySorted Z.lt idxs /\
    Forall (fun i => 0 <= i < Z.of_nat (List.length ss))%Z idxs /\
    qs = map (fun i => nth (Z.to_nat i) ss []) idxs.
Proof.
  intros ss. unfold find_quotes in Hcall.
  destruct (negb (str_truthy topic) || negb (str_truthy pageContent));
    [discriminate|].
  fold ss in Hcall.
  destruct (select_call _ _ _ _ Hcall) as [filtered [Hin ->]].
  set (n := Z.of_nat (List.length ss)).
  assert (Hb : Forall (fun e => Z.of_nat (idx e) < n)%Z filtered).
  { apply Forall_forall. intros e He. apply Hin, score_all_idx in He. lia. }
  pose proof (pick_nodup n filtered Hb) as Hnd.
  exists (filter (kept ss) (sortZ (pick n filtered))). split; [|split].
  - apply strongly_sorted_filter, sorted_nodup_strict; [apply sortZ_sorted|].
    apply Permutation_NoDup with (pick n filtered); [symmetry; apply sortZ_perm | exact Hnd].
  - apply Forall_forall. intros i Hi. apply filter_In in Hi. apply kept_bounds, Hi.
  - apply quotes_of_map.
Qed.

Lemma candidates_reading_order_witness :
  let fz := fun (_ : list str) (_ : str) => @nil fuse_result in
  let ch := fun _ : str => @None str in
  let page := lit "Intro words here for padding only. Climate policy shapes our shared future. Cooking pasta needs boiling water first. Nothing else matters in this final line." in
  find_quotes fz ch (lit "climate policy") page =
    CallModel [lit "Intro words here for padding only.";
               lit "Climate policy shapes our shared future.";
               lit "Cooking pasta needs boiling water first."] /\
  let ss := page_sentences ch page in
  exists idxs : list Z,
    StronglySorted Z.lt idxs /\
    Forall (fun i => 0 <= i < Z.of_nat (List.length ss))%Z idxs /\
    [lit "Intro words here for padding only.";
     lit "Climate policy shapes our shared future.";
     lit "Cooking pasta needs boiling water first."] =
    map (fun i => nth (Z.to_nat i) ss []) idxs.
Proof.
  intros fz ch page.
  assert (H : find_quotes fz ch (lit "climate policy") page =
    CallModel [lit "Intro words here for padding only.";
               lit "Climate policy shapes our shared future.";
               lit "Cooking pasta needs boiling water first."])
    by (vm_compute; reflexivity).
  split; [exact H|].
  exact (candidates_reading_order fz ch (lit "climate policy") page _ H).
Defined.

(** *** The sentence segmenter *)

Import SplitSpec.

Definition last_punct (cur : str) : bool :=
  match cur with c :: _ => is_punct c | [] => false end.

Lemma ends_punct_rev (cur : str) : ends_punct (rev cur) = last_punct cur.
Proof. unfold ends_punct. rewrite rev_involutive. reflexivity. Qed.

Lemma no_split_point_snoc (l : str) (c : ascii) :
  no_split_point (l ++ [c]) = no_split_point l && negb (ends_punct l && is_ws c).
Proof.
  induction l as [|x l IH]; [reflexivity|].
  destruct l as [|y l].
  - cbn. unfold ends_punct. cbn. rewrite !andb_true_r. reflexivity.
  - change ((x :: y :: l) ++ [c]) with (x :: ((y :: l) ++ [c])).
    change (no_split_point (x :: ((y :: l) ++ [c])))
      with (negb (is_punct x && is_ws y) && no_split_point ((y :: l) ++ [c])).
    change (no_split_point (x :: y :: l))
      with (negb (is_punct x && is_ws y) && no_split_point (y :: l)).
    rewrite IH. unfold ends_punct.
    replace (rev (x :: y :: l)) with (rev (y :: l) ++ [x]) by reflexivity.
    destruct (rev (y :: l)) as [|z r] eqn:E.
    + apply (f_equal (@List.length ascii)) in E. rewrite length_rev in E. discriminate.
    + cbn [app]. apply andb_assoc.
Qed.

Lemma split_aux_shape (s : str) :
  (forall cur, no_split_point (rev cur) = true ->
     exists v rest,
       split_aux (last_punct cur) false cur s = (rev cur ++ v) :: map snd rest /\
       rev cur ++ s = interleave (rev cur ++ v) rest /\ shape_ok (rev cur ++ v) rest) /\
  (exists w u0 rest,
     split_aux false true [] s = u0 :: map snd rest /\
     s = w ++ interleave u0 rest /\ Forall (fun c => is_ws c = true) w /\
     starts_non_ws u0 = true /\ shape_ok u0 rest).
Proof.
  induction s as [|ch s [IHu IHs]].
  - split.
    + intros cur Hc. exists [], []. rewrite app_nil_r. cbn.
      repeat split; [exact Hc].
    + exists [], [], []. cbn. repeat split; constructor.
  - split.
    + intros cur Hc. cbn [split_aux].
      destruct (is_ws ch && last_punct cur) eqn:Ecut.
      * destruct IHs as (w & u1 & rest1 & Hsp & Heq & Hw & Hst & Hsh).
        exists [], ((ch :: w, u1) :: rest1). rewrite app_nil_r.
        apply andb_true_iff in Ecut. destruct Ecut as [Ews Elp].
        split; [rewrite Hsp; reflexivity|]. split.
        { cbn [interleave]. rewrite Heq. reflexivity. }
        cbn [shape_ok]. split; [exact Hc|].
        split; [rewrite ends_punct_rev; exact Elp|].
        split; [discriminate|]. split; [constructor; assumption|].
        split; assumption.
      * assert (Hc' : no_split_point (rev (ch :: cur)) = true).
        { cbn [rev]. rewrite no_split_point_snoc, Hc, ends_punct_rev.
          rewrite andb_comm in Ecut. rewrite Ecut. reflexivity. }
        destruct (IHu (ch :: cur) Hc') as (v & rest & Hsp & Heq & Hsh).
        exists (ch :: v), rest. cbn [last_punct rev] in Hsp, Heq, Hsh.
        rewrite <- !app_assoc in Hsp, Heq, Hsh. cbn [app] in Hsp, Heq, Hsh.
        split; [exact Hsp|]. split; [rewrite Heq, <- app_assoc; reflexivity | exact Hsh].
    + cbn [split_aux]. destruct (is_ws ch) eqn:Ews.
      * destruct IHs as (w & u0 & rest & Hsp & Heq & Hw & Hst & Hsh).
        exists (ch :: w), u0, rest.
        split; [exact Hsp|]. split; [rewrite Heq; reflexivity|].
        split; [constructor; assumption|]. split; assumption.
      * destruct (IHu [ch] eq_refl) as (v & rest & Hsp & Heq & Hsh).
        exists [], (ch :: v), rest. cbn [last_punct rev app] in Hsp, Heq, Hsh.
        split; [exact Hsp|]. split; [exact Heq|]. split; [constructor|].
        split; [cbn; rewrite Ews; reflexivity | exact Hsh].
Qed.

(** ** C3 *)
(** C3: for every text, the segmenter cuts it into units separated by
    maximal whitespace runs that follow [.], [!] or [?] (and nowhere
    else), trims each unit and keeps, in order and densely renumbered,
    exactly the trimmed units longer than 20 characters. *)
Theorem sentence_segmenter (t : str) :
  (exists u0 rest,
     split_sentences t = u0 :: map snd rest /\
     t = interleave u0 rest /\ shape_ok u0 rest) /\
  sentences_of t = filter (fun s => 20 <? List.length s) (map trim (split_sentences t)) /\
  (forall s, In s (sentences_of t) <->
     (exists u, In u (split_sentences t) /\ s = trim u) /\ 20 < List.length s).
Proof.
  split; [|split; [reflexivity|]].
  - destruct (proj1 (split_aux_shape t) [] eq_refl) as (v & rest & Hsp & Heq & Hsh).
    exists v, rest. exact (conj Hsp (conj Heq Hsh)).
  - intros s. unfold sentences_of. rewrite filter_In, in_map_iff, Nat.ltb_lt.
    split; intros [[u [Hu Hin]] Hl]; split; try exact Hl; exists u; auto.
Qed.

(** A unit of exactly 20 characters, which the spec keeps, is dropped. *)
Lemma segmenter_drops_twenty :
  let t := lit "Twenty chars exactly" in
  split_sentences t = [t] /\ trim t = t /\ List.length t = 20 /\ sentences_of t = [].
Proof. vm_compute. repeat split. Qed.
End RankFacts.

Module CsvFacts.
Import Text Rank Csv CsvReader.

Lemma includes_single (s : str) (c : ascii) : includes s [c] = true <-> In c s.
Proof.
  induction s as [|x s IH]; cbn [includes is_prefix In].
  - split; [discriminate | intros []].
  - rewrite orb_true_iff, andb_true_r, IH, Ascii.eqb_eq. intuition congruence.
Qed.

Lemma includes_single_false (s : str) (c : ascii) : includes s [c] = false <-> ~ In c s.
Proof. rewrite <- includes_single. destruct (includes s [c]); intuition congruence. Qed.

Definition run (s : str) (st : option rstate) : option rstate := fold_left read_char s st.

Lemma plain_run (r f : str) fs rs :
  (forall c, In c r -> c <> ","%char /\ c <> LF) ->
  run r (Some (mkR Plain f fs rs)) = Some (mkR Plain (rev r ++ f) fs rs).
Proof.
  unfold run. revert f. induction r as [|c r IH]; intros f Hr; [reflexivity|].
  cbn [fold_left]. destruct (Hr c (or_introl eq_refl)) as [H1 H2].
  unfold read_char at 2. cbn [rmode].
  rewrite (proj2 (Ascii.eqb_neq c ","%char) H1), (proj2 (Ascii.eqb_neq c LF) H2).
  unfold add_char. cbn [field fields records].
  rewrite IH by (intros; apply Hr; right; assumption).
  cbn [rev]. rewrite <- app_assoc. reflexivity.
Qed.

Lemma quoted_run (r f : str) fs rs :
  run (flat_map (fun c => if Ascii.eqb c DQ then [DQ; DQ] else [c]) r)
      (Some (mkR Quoted f fs rs)) = Some (mkR Quoted (rev r ++ f) fs rs).
Proof.
  unfold run. revert f. induction r as [|c r IH]; intros f; [reflexivity|].
  cbn [flat_map]. rewrite fold_left_app.
  destruct (Ascii.eqb c DQ) eqn:E.
  - apply Ascii.eqb_eq in E. subst c. cbn [fold_left read_char rmode].
    rewrite Ascii.eqb_refl. cbn [fold_left read_char rmode field]. rewrite Ascii.eqb_refl.
    unfold add_char. cbn [field fields records]. rewrite IH.
    cbn [rev]. rewrite <- app_assoc. reflexivity.
  - cbn [fold_left read_char rmode]. rewrite E. unfold add_char.
    cbn [field fields records]. rewrite IH. cbn [rev]. rewrite <- app_assoc. reflexivity.
Qed.

(** After the characters of an escaped field the reader holds that field. *)
Lemma escaped_field (v : str) fs rs :
  exists m, run (csvEscape (Some v)) (Some (mkR FieldStart [] fs rs)) =
            Some (mkR m (rev v) fs rs) /\
            (m = FieldStart \/ m = Plain \/ m = QuoteSeen).
Proof.
  unfold csvEscape.
  destruct (includes v [DQ] || includes v [","%char] || includes v [LF] || includes v [CR])
    eqn:Esp.
  - exists QuoteSeen. split; [|right; right; reflexivity].
    unfold run. rewrite !fold_left_app. cbn [fold_left read_char rmode].
    rewrite Ascii.eqb_refl. fold (run (flat_map (fun c => if Ascii.eqb c DQ then [DQ; DQ] else [c]) v)
                                   (Some (mkR Quoted [] fs rs))).
    rewrite quoted_run, app_nil_r. cbn [fold_left read_char rmode].
    rewrite Ascii.eqb_refl. reflexivity.
  - rewrite !orb_false_iff, !includes_single_false in Esp.
    destruct Esp as [[[Hq Hc] Hl] _].
    destruct v as [|c r].
    + exists FieldStart. split; [reflexivity | left; reflexivity].
    + exists Plain. split; [|right; left; reflexivity].
      unfold run. cbn [fold_left read_char rmode].
      assert (c <> DQ) by (intros ->; apply Hq; left; reflexivity).
      assert (c <> ","%char) by (intros ->; apply Hc; left; reflexivity).
      assert (c <> LF) by (intros ->; apply Hl; left; reflexivity).
      rewrite (proj2 (Ascii.eqb_neq c DQ)), (proj2 (Ascii.eqb_neq c ","%char)),
              (proj2 (Ascii.eqb_neq c LF)) by assumption.
      fold (run r (Some (add_char c Plain (mkR FieldStart [] fs rs)))). unfold add_char.
      cbn [field fields records]. rewrite plain_run.
      * cbn [rev]. reflexivity.
      * intros x Hx. split; intros ->; [apply Hc | apply Hl]; right; exact Hx.
Qed.

Lemma field_then_comma (v : str) fs rs :
  run (csvEscape (Some v) ++ [","%char]) (Some (mkR FieldStart [] fs rs)) =
  Some (mkR FieldStart [] (v :: fs) rs).
Proof.
  destruct (escaped_field v fs rs) as [m [Hr Hm]]. unfold run in *.
  rewrite fold_left_app, Hr.
  destruct Hm as [-> | [-> | ->]]; cbn; unfold push_field, end_record; cbn [field fields records];
    rewrite rev_involutive; reflexivity.
Qed.

Lemma field_then_lf (v : str) fs rs :
  run (csvEscape (Some v) ++ [LF]) (Some (mkR FieldStart [] fs rs)) =
  Some (mkR FieldStart [] [] (rs ++ [rev (v :: fs)])).
Proof.
  destruct (escaped_field v fs rs) as [m [Hr Hm]]. unfold run in *.
  rewrite fold_left_app, Hr.
  destruct Hm as [-> | [-> | ->]]; cbn; unfold push_field, end_record; cbn [field fields records];
    rewrite rev_involutive; reflexivity.
Qed.

Lemma run_app (a b : str) st : run (a ++ b) st = run b (run a st).
Proof. apply fold_left_app. Qed.

Lemma csv_parse_state (s : str) rs :
  csv_parse s = Some rs -> run s csv_init = Some (mkR FieldStart [] [] rs).
Proof.
  unfold csv_parse, run.
  destruct (fold_left read_char s csv_init) as [[m f fs rs']|]; [|discriminate].
  destruct m; try discriminate. destruct f; try discriminate.
  destruct fs; try discriminate. intros [= ->]. reflexivity.
Qed.

Lemma append_row_parse (logFile iso : str) (topic pageTitle pageUrl : option str)
    (rs : list (list str))
    (Hlog : csv_parse logFile = Some rs)
    (Hiso : ~ In DQ iso /\ ~ In ","%char iso /\ ~ In LF iso /\ ~ In CR iso) :
  csv_parse (logPromptToCsv iso topic pageTitle pageUrl logFile) =
  Some (rs ++ [[iso; match topic with Some t => t | None => [] end;
                or_default pageTitle (lit "Current Page");
                or_default pageUrl (lit "Unknown URL")]]).
Proof.
  assert (Eiso : csvEscape (Some iso) = iso).
  { unfold csvEscape. destruct Hiso as (H1 & H2 & H3 & H4).
    apply includes_single_false in H1, H2, H3, H4. rewrite H1, H2, H3, H4. reflexivity. }
  assert (Etop : csvEscape topic = csvEscape (Some (match topic with Some t => t | None => [] end)))
    by (destruct topic; reflexivity).
  apply csv_parse_state in Hlog.
  unfold logPromptToCsv, log_row, csv_parse. cbn [join].
  rewrite <- Eiso at 1. rewrite Etop.
  set (e1 := match topic with Some t => t | None => [] end).
  set (e2 := or_default pageTitle (lit "Current Page")).
  set (e3 := or_default pageUrl (lit "Unknown URL")).
  replace (logFile ++ (csvEscape (Some iso) ++ [","%char] ++ csvEscape (Some e1) ++ [","%char]
             ++ csvEscape (Some e2) ++ [","%char] ++ csvEscape (Some e3)) ++ [LF])
    with (logFile ++ (csvEscape (Some iso) ++ [","%char]) ++ (csvEscape (Some e1) ++ [","%char])
             ++ (csvEscape (Some e2) ++ [","%char]) ++ (csvEscape (Some e3) ++ [LF]))
    by (rewrite <- !app_assoc; reflexivity).
  change (fold_left read_char ?x csv_init) with (run x csv_init).
  rewrite run_app, Hlog.
  rewrite run_app, field_then_comma.
  rewrite run_app, field_then_comma.
  rewrite run_app, field_then_comma.
  rewrite field_then_lf. reflexivity.
Qed.

(** X1: appending a log row to a log file that reads back as CSV records
    adds exactly one record: the time stamp, the topic ([''] when absent),
    the page title or [Current Page] and the page URL or [Unknown URL],
    whatever commas, double quotes or line breaks they contain. *)
Theorem log_row_roundtrip (logFile iso : str) (topic pageTitle pageUrl : option str)
    (rs : list (list str))
    (Hlog : csv_parse logFile = Some rs)
    (Hiso : ~ In DQ iso /\ ~ In ","%char iso /\ ~ In LF iso /\ ~ In CR iso) :
  csv_parse (logPromptToCsv iso topic pageTitle pageUrl logFile) =
  Some (rs ++ [[iso; match topic with Some t => t | None => [] end;
                or_default pageTitle (lit "Current Page");
                or_default pageUrl (lit "Unknown URL")]]).
Proof. apply append_row_parse; assumption. Qed.

Lemma log_row_roundtrip_witness :
  csv_parse LOG_HEADER = Some [[lit "timestamp"; lit "topic"; lit "page_title"; lit "page_url"]] /\
  (~ In DQ (lit "2026-10-14T09:30:00.000Z") /\ ~ In ","%char (lit "2026-10-14T09:30:00.000Z") /\
   ~ In LF (lit "2026-10-14T09:30:00.000Z") /\ ~ In CR (lit "2026-10-14T09:30:00.000Z")) /\
  csv_parse (logPromptToCsv (lit "2026-10-14T09:30:00.000Z") (Some (lit "war, peace"))
               None (Some (lit "http://a.b/x")) LOG_HEADER) =
  Some ([[lit "timestamp"; lit "topic"; lit "page_title"; lit "page_url"]] ++
        [[lit "2026-10-14T09:30:00.000Z"; lit "war, peace"; lit "Current Page";
          lit "http://a.b/x"]]).
Proof.
  assert (H1 : csv_parse LOG_HEADER =
               Some [[lit "timestamp"; lit "topic"; lit "page_title"; lit "page_url"]])
    by (vm_compute; reflexivity).
  assert (H2 : ~ In DQ (lit "2026-10-14T09:30:00.000Z") /\
               ~ In ","%char (lit "2026-10-14T09:30:00.000Z") /\
               ~ In LF (lit "2026-10-14T09:30:00.000Z") /\
               ~ In CR (lit "2026-10-14T09:30:00.000Z")).
  { vm_compute. intuition discriminate. }
  split; [exact H1|]. split; [exact H2|].
  exact (log_row_roundtrip LOG_HEADER _ (Some (lit "war, peace")) None (Some (lit "http://a.b/x")) _ H1 H2).
Defined.
End CsvFacts.

Module CacheMore.
Import Cache CacheFacts JSMapFacts.

Lemma key_eqb_refl' k : key_eqb k k = true.
Proof. apply key_eqb_spec. reflexivity. Qed.

Lemma size_set k v (m : cache) :
  JSMap.size (JSMap.set key_eqb k v m) =
  if JSMap.has key_eqb k m then JSMap.size m else S (JSMap.size m).
Proof.
  unfold JSMap.size, JSMap.has.
  induction m as [|[k' v'] m IH]; cbn [JSMap.set JSMap.get List.length]; [reflexivity|].
  destruct (key_eqb k k'); cbn [List.length]; [reflexivity|].
  rewrite IH. destruct (JSMap.get key_eqb k m); reflexivity.
Qed.

Lemma size_delete_in k (m : cache) :
  In k (map fst m) -> S (JSMap.size (JSMap.delete key_eqb k m)) = JSMap.size m.
Proof.
  unfold JSMap.size.
  induction m as [|[k' v'] m IH]; cbn [map fst In]; [tauto|].
  intros Hin. cbn [JSMap.delete].
  destruct (key_eqb k k') eqn:E; [reflexivity|].
  cbn [List.length]. f_equal. apply IH.
  destruct Hin as [<-|Hin]; [|exact Hin].
  rewrite key_eqb_refl' in E. discriminate.
Qed.

Lemma in_delete (k : key) (m : cache) kv : In kv (JSMap.delete key_eqb k m) -> In kv m.
Proof.
  induction m as [|[k' v'] m IH]; cbn [JSMap.delete]; [tauto|].
  destruct (key_eqb k k'); cbn [In]; [tauto|].
  intros [H|H]; [left; exact H | right; apply IH, H].
Qed.

Lemma in_set (k : key) v (m : cache) kv :
  In kv (JSMap.set key_eqb k v m) -> kv = (k, v) \/ In kv m.
Proof.
  induction m as [|[k' v'] m IH]; cbn [JSMap.set In].
  - intros [<-|[]]. left; reflexivity.
  - destruct (key_eqb k k') eqn:E; cbn [In].
    + apply key_eqb_spec in E. subst k'.
      intros [<-|H]; [left; reflexivity | right; right; exact H].
    + intros [<-|H]; [right; left; reflexivity|].
      destruct (IH H) as [H'|H']; [left; exact H' | right; right; exact H'].
Qed.

Lemma oldest_scan_cases (c : cache) o t :
  oldest_scan c o t = o \/ exists k, oldest_scan c o t = Some k /\ In k (map fst c).
Proof.
  revert o t. induction c as [|[k v] c IH]; intros o t; cbn [oldest_scan]; [left; reflexivity|].
  destruct (timestamp v <? t)%Z.
  - right. destruct (IH (Some k) (timestamp v)) as [E|[k' [E Hin]]]; rewrite E.
    + exists k. split; [reflexivity | left; reflexivity].
    + exists k'. split; [reflexivity | right; exact Hin].
  - destruct (IH o t) as [E|[k' [E Hin]]]; [left; exact E|].
    right. exists k'. split; [exact E | right; exact Hin].
Qed.

Lemma oldest_scan_found (c : cache) (now : Z) :
  c <> [] -> Forall (fun kv => (timestamp (snd kv) < now)%Z) c ->
  exists k, oldest_scan c None now = Some k /\ In k (map fst c).
Proof.
  destruct c as [|[k v] c]; [congruence|]. intros _ Hts.
  inversion Hts as [|? ? Hv _]; subst. cbn [snd] in Hv. cbn [oldest_scan].
  apply Z.ltb_lt in Hv. rewrite Hv.
  destruct (oldest_scan_cases c (Some k) (timestamp v)) as [E|[k' [E Hin]]]; rewrite E.
  - exists k. split; [reflexivity | left; reflexivity].
  - exists k'. split; [reflexivity | right; exact Hin].
Qed.

(** The scan keeps the first entry of least time stamp below the start
    value, or the start candidate when there is none. *)
Lemma oldest_scan_min (c : cache) o t k :
  oldest_scan c o t = Some k ->
  (o = Some k /\ forall kv, In kv c -> (t <= timestamp (snd kv))%Z) \/
  (exists v, In (k, v) c /\ (timestamp v < t)%Z /\
             forall kv, In kv c -> (timestamp v <= timestamp (snd kv))%Z).
Proof.
  revert o t. induction c as [|[k0 v0] c IH]; intros o t; cbn [oldest_scan].
  - intros ->. left. split; [reflexivity | intros kv []].
  - destruct (Z.ltb_spec (timestamp v0) t) as [Hlt|Hge]; intros Hs.
    + right. destruct (IH _ _ Hs) as [[Ho Hall]|[v [Hin [Hv Hall]]]].
      * injection Ho as <-. exists v0. split; [left; reflexivity|]. split; [exact Hlt|].
        intros kv [<-|Hkv]; [cbn [snd]; lia | exact (Hall kv Hkv)].
      * exists v. split; [right; exact Hin|]. split; [lia|].
        intros kv [<-|Hkv]; [cbn [snd]; lia | exact (Hall kv Hkv)].
    + destruct (IH _ _ Hs) as [[Ho Hall]|[v [Hin [Hv Hall]]]].
      * left. split; [exact Ho|]. intros kv [<-|Hkv]; [cbn [snd]; lia | exact (Hall kv Hkv)].
      * right. exists v. split; [right; exact Hin|]. split; [exact Hv|].
        intros kv [<-|Hkv]; [cbn [snd]; lia | exact (Hall kv Hkv)].
Qed.

(** X2: a read that hits refreshes the entry: a second read of the same
    key hits again with the same content and OCR flag as long as it comes
    at most [PDF_CACHE_DURATION] after the first read, however old the
    original write is. *)
Theorem get_hit_slides (now1 now2 : Z) (k : key) (c c1 : cache) (e : entry)
    (Hget : getCachedPdfContent now1 k c = (c1, Some e))
    (Hle : (now2 - now1 <= PDF_CACHE_DURATION)%Z) :
  getCachedPdfContent now2 k c1 =
    (JSMap.set key_eqb k (mkEntry (content e) (isOCR e) now2) c1,
     Some (mkEntry (content e) (isOCR e) now2)).
Proof.
  unfold getCachedPdfContent in Hget |- *.
  destruct (JSMap.get key_eqb k c) as [x|] eqn:Eg; [|discriminate].
  destruct (expired now1 x); [discriminate|].
  injection Hget as <- <-.
  rewrite (get_set_same key_eqb key_eqb_spec). cbn [content isOCR].
  assert (He : expired now2 (mkEntry (content x) (isOCR x) now1) = false)
    by (unfold expired; cbn [timestamp]; rewrite Z.gtb_ltb; apply Z.ltb_ge; lia).
  rewrite He. reflexivity.
Qed.

Lemma get_hit_slides_witness :
  let c := cachePdfContent 0 (Some (lit "u")) (lit "text") false [] in
  getCachedPdfContent 250000 (Some (lit "u")) c =
    (JSMap.set key_eqb (Some (lit "u")) (mkEntry (lit "text") false 250000) c,
     Some (mkEntry (lit "text") false 250000)) /\
  (500000 - 250000 <= PDF_CACHE_DURATION)%Z /\
  getCachedPdfContent 500000 (Some (lit "u"))
      (JSMap.set key_eqb (Some (lit "u")) (mkEntry (lit "text") false 250000) c) =
    (JSMap.set key_eqb (Some (lit "u")) (mkEntry (lit "text") false 500000)
       (JSMap.set key_eqb (Some (lit "u")) (mkEntry (lit "text") false 250000) c),
     Some (mkEntry (lit "text") false 500000)).
Proof.
  intros c.
  assert (H1 : getCachedPdfContent 250000 (Some (lit "u")) c =
    (JSMap.set key_eqb (Some (lit "u")) (mkEntry (lit "text") false 250000) c,
     Some (mkEntry (lit "text") false 250000))) by (vm_compute; reflexivity).
  assert (H2 : (500000 - 250000 <= PDF_CACHE_DURATION)%Z) by (vm_compute; discriminate).
  split; [exact H1|]. split; [exact H2|].
  exact (get_hit_slides 250000 500000 (Some (lit "u")) c _ _ H1 H2).
Defined.

(** X3: a write never leaves an expired entry behind: after
    [cachePdfContent] at time [now], every entry is either the one just
    written (stamped [now]) or an entry that was already in the cache and
    is not expired at [now]. *)
Theorem put_keeps_only_live (now : Z) (url : key) (cont : str) (ocr : bool) (c : cache) :
  forall kv, In kv (cachePdfContent now url cont ocr c) ->
    kv = (url, mkEntry cont ocr now) \/ (In kv c /\ expired now (snd kv) = false).
Proof.
  intros kv Hin. unfold cachePdfContent in Hin.
  apply in_set in Hin. destruct Hin as [Hin|Hin]; [left; exact Hin|right].
  assert (Hs : In kv (sweep now c)).
  { destruct (_ && _); [|exact Hin].
    destruct (oldest_scan _ _ _) as [k|]; [|exact Hin].
    destruct (key_truthy k); [|exact Hin]. apply in_delete in Hin. exact Hin. }
  unfold sweep in Hs. apply filter_In in Hs. destruct Hs as [Hs He].
  split; [exact Hs|]. destruct (expired now (snd kv)); [discriminate | reflexivity].
Qed.

(** X4: the size bound holds when every entry is older than the write:
    if the cache has at most [MAX_CACHE_SIZE] entries, all with truthy keys
    and time stamps strictly before [now], it still has at most
    [MAX_CACHE_SIZE] entries after [cachePdfContent] at [now].  When the
    swept cache is full and the key is new, the write first deletes a key
    whose entry has the least time stamp of the swept cache. *)
Theorem put_size_bound (now : Z) (url : key) (cont : str) (ocr : bool) (c : cache)
    (Hts : Forall (fun kv => (timestamp (snd kv) < now)%Z) c)
    (Hkeys : Forall (fun kv => key_truthy (fst kv) = true) c)
    (Hsize : JSMap.size c <= MAX_CACHE_SIZE) :
  JSMap.size (cachePdfContent now url cont ocr c) <= MAX_CACHE_SIZE /\
  (MAX_CACHE_SIZE <= JSMap.size (sweep now c) -> JSMap.has key_eqb url (sweep now c) = false ->
   exists k v, In (k, v) (sweep now c) /\
     (forall kv, In kv (sweep now c) -> (timestamp v <= timestamp (snd kv))%Z) /\
     cachePdfContent now url cont ocr c =
       JSMap.set key_eqb url (mkEntry cont ocr now) (JSMap.delete key_eqb k (sweep now c))).
Proof.
  set (c1 := sweep now c).
  assert (H1 : JSMap.size c1 <= MAX_CACHE_SIZE).
  { unfold c1, sweep, JSMap.size in *. rewrite <- Hsize.
    clear. induction c as [|a c IH]; cbn [filter]; [reflexivity|].
    destruct (negb _); cbn [List.length]; lia. }
  assert (Hts1 : Forall (fun kv => (timestamp (snd kv) < now)%Z) c1)
    by (apply Forall_forall; intros x Hx; apply filter_In in Hx;
        rewrite Forall_forall in Hts; apply Hts, Hx).
  assert (Hk1 : Forall (fun kv => key_truthy (fst kv) = true) c1)
    by (apply Forall_forall; intros x Hx; apply filter_In in Hx;
        rewrite Forall_forall in Hkeys; apply Hkeys, Hx).
  assert (Hfull : MAX_CACHE_SIZE <= JSMap.size c1 -> JSMap.has key_eqb url c1 = false ->
     exists k, oldest_scan c1 None now = Some k /\ In k (map fst c1) /\ key_truthy k = true /\
       cachePdfContent now url cont ocr c =
         JSMap.set key_eqb url (mkEntry cont ocr now) (JSMap.delete key_eqb k c1)).
  { intros Ec Eh.
    assert (Hne : c1 <> []) by (intros E; rewrite E in Ec; cbv in Ec; lia).
    destruct (oldest_scan_found c1 now Hne Hts1) as [k [Ek Hin]].
    assert (Hkt : key_truthy k = true).
    { apply in_map_iff in Hin. destruct Hin as [[k' v] [<- Hin]].
      rewrite Forall_forall in Hk1. exact (Hk1 _ Hin). }
    exists k. split; [exact Ek|]. split; [exact Hin|]. split; [exact Hkt|].
    unfold cachePdfContent. fold c1. apply Nat.leb_le in Ec. rewrite Ec, Eh. cbn [andb negb].
    rewrite Ek, Hkt. reflexivity. }
  split.
  - destruct ((MAX_CACHE_SIZE <=? JSMap.size c1) && negb (JSMap.has key_eqb url c1)) eqn:Ec.
    + apply andb_true_iff in Ec. destruct Ec as [Ec Eh].
      apply Nat.leb_le in Ec. apply negb_true_iff in Eh.
      destruct (Hfull Ec Eh) as [k [_ [Hin [_ ->]]]].
      rewrite size_set.
      pose proof (size_delete_in k c1 Hin) as Hd.
      destruct (JSMap.has key_eqb url (JSMap.delete key_eqb k c1)); lia.
    + unfold cachePdfContent. fold c1. rewrite Ec.
      rewrite size_set. destruct (JSMap.has key_eqb url c1) eqn:Eh; [exact H1|].
      rewrite andb_true_r in Ec. apply Nat.leb_gt in Ec. unfold MAX_CACHE_SIZE in *. lia.
  - intros Ec Eh. destruct (Hfull Ec Eh) as [k [Ek [_ [_ Hc]]]].
    destruct (oldest_scan_min c1 None now k Ek) as [[Ho _]|[v [Hin [_ Hall]]]];
      [discriminate|].
    exists k, v. split; [exact Hin|]. split; [exact Hall | exact Hc].
Qed.

Lemma put_keeps_only_live_witness :
  let c := [(Some (lit "a"), mkEntry (lit "x") false 0%Z)] : cache in
  let kv := (Some (lit "a"), mkEntry (lit "x") false 0%Z) in
  In kv (cachePdfContent 1 (Some (lit "b")) (lit "y") true c) /\
  (kv = (Some (lit "b"), mkEntry (lit "y") true 1%Z) \/
   (In kv c /\ expired 1 (snd kv) = false)).
Proof.
  intros c kv.
  assert (Hin : In kv (cachePdfContent 1 (Some (lit "b")) (lit "y") true c))
    by (vm_compute; auto).
  split; [exact Hin|].
  exact (put_keeps_only_live 1 (Some (lit "b")) (lit "y") true c kv Hin).
Defined.

Lemma put_size_bound_witness :
  let c := map (fun n => (Some [ascii_of_nat (97 + n)], mkEntry (lit "x") false (Z.of_nat (20 - n))))
               (seq 0 15) : cache in
  Forall (fun kv => (timestamp (snd kv) < 30)%Z) c /\
  Forall (fun kv => key_truthy (fst kv) = true) c /\
  JSMap.size c <= MAX_CACHE_SIZE /\
  MAX_CACHE_SIZE <= JSMap.size (sweep 30 c) /\
  JSMap.has key_eqb (Some (lit "new")) (sweep 30 c) = false /\
  JSMap.size (cachePdfContent 30 (Some (lit "new")) (lit "y") true c) <= MAX_CACHE_SIZE /\
  (exists k v, In (k, v) (sweep 30 c) /\
     (forall kv, In kv (sweep 30 c) -> (timestamp v <= timestamp (snd kv))%Z) /\
     cachePdfContent 30 (Some (lit "new")) (lit "y") true c =
       JSMap.set key_eqb (Some (lit "new")) (mkEntry (lit "y") true 30)
         (JSMap.delete key_eqb k (sweep 30 c))).
Proof.
  intros c.
  assert (H1 : Forall (fun kv => (timestamp (snd kv) < 30)%Z) c)
    by (vm_compute; repeat constructor).
  assert (H2 : Forall (fun kv => key_truthy (fst kv) = true) c)
    by (vm_compute; repeat constructor).
  assert (H3 : JSMap.size c <= MAX_CACHE_SIZE) by (vm_compute; lia).
  assert (H4 : MAX_CACHE_SIZE <= JSMap.size (sweep 30 c)) by (vm_compute; lia).
  assert (H5 : JSMap.has key_eqb (Some (lit "new")) (sweep 30 c) = false)
    by (vm_compute; reflexivity).
  destruct (put_size_bound 30 (Some (lit "new")) (lit "y") true c H1 H2 H3) as [Hs He].
  split; [exact H1|]. split; [exact H2|]. split; [exact H3|]. split; [exact H4|].
  split; [exact H5|]. split; [exact Hs|]. exact (He H4 H5).
Defined.

End CacheMore.

Module SegmentMore.
Import Cache Segments CacheFacts.

Lemma js_substring_length (s : str) (a b : N) :
  (b <= N.of_nat (List.length s))%N ->
  N.of_nat (List.length (js_substring s a b)) = (N.max (N.min a (N.of_nat (List.length s))) b
                                                 - N.min (N.min a (N.of_nat (List.length s))) b)%N.
Proof.
  intros Hb. unfold js_substring.
  replace (N.min b (N.of_nat (List.length s))) with b by lia.
  rewrite length_firstn, length_skipn. lia.
Qed.

(** X5: a segment answer for a (non-negative) index has that index,
    starts at [index * SEGMENT_SIZE] and ends at most [SEGMENT_SIZE]
    later.  When [start <= end] its content has exactly [end - start]
    characters; for an index past the end of the document [end] is the
    document length, below [start], and the content is empty: the
    swapped [substring] bounds both clamp to the length. *)
Theorem segment_response_bounds (now : Z) (k : key) (i : N) (c c' : cache)
    (s : str) (i' st en : N) (o : bool)
    (Hr : get_pdf_segment now k (Some i) c = (c', SegOk s i' st en o)) :
  i' = i /\ st = (i * SEGMENT_SIZE)%N /\ (en <= st + SEGMENT_SIZE)%N /\
  ((st <= en)%N -> Z.of_nat (List.length s) = (Z.of_N en - Z.of_N st)%Z) /\
  ((en < st)%N -> s = []).
Proof.
  unfold get_pdf_segment in Hr. destruct (negb (key_truthy k)); [discriminate|].
  destruct (getCachedPdfContent now k c) as [c1 [e|]]; [|discriminate].
  injection Hr as _ <- <- <- <- _.
  split; [reflexivity|]. split; [reflexivity|]. split; [lia|].
  split.
  - intros Hle.
    pose proof (js_substring_length (content e) (i * SEGMENT_SIZE)
                  (N.min (i * SEGMENT_SIZE + SEGMENT_SIZE) (N.of_nat (List.length (content e)))))
      as Hl.
    lapply Hl; [clear Hl; intros Hl | lia]. lia.
  - intros Hlt. apply length_zero_iff_nil.
    pose proof (js_substring_length (content e) (i * SEGMENT_SIZE)
                  (N.min (i * SEGMENT_SIZE + SEGMENT_SIZE) (N.of_nat (List.length (content e)))))
      as Hl.
    lapply Hl; [clear Hl; intros Hl | lia]. lia.
Qed.

Lemma segment_response_bounds_witness :
  let c := [(Some (lit "u"), mkEntry (lit "abc") false 0%Z)] : cache in
  get_pdf_segment 0 (Some (lit "u")) (Some 1%N) c =
    (c, SegOk [] 1 50000 3 false) /\
  (1 = 1 /\ 50000 = 1 * SEGMENT_SIZE /\ 3 <= 50000 + SEGMENT_SIZE)%N /\
  ((50000 <= 3)%N -> Z.of_nat (List.length (@nil ascii)) = (Z.of_N 3 - Z.of_N 50000)%Z) /\
  ((3 < 50000)%N -> @nil ascii = []).
Proof.
  intros c.
  assert (H : get_pdf_segment 0 (Some (lit "u")) (Some 1%N) c =
                (c, SegOk [] 1 50000 3 false)) by (vm_compute; reflexivity).
  split; [exact H|].
  destruct (segment_response_bounds 0 (Some (lit "u")) 1 c c [] 1 50000 3 false H)
    as [E1 [E2 [E3 [E4 E5]]]].
  split; [split; [exact E1|]; split; [exact E2 | exact E3]|].
  split; [exact E4 | exact E5].
Defined.

End SegmentMore.

Module ExtractMore.
Import Cache Segments Extract.

(** X7: the scanned-document test [textLength / pageCount < 500] is,
    in integers, [pageCount > 0] and [textLength < 500 * pageCount]. *)
Theorem isScannedPDF_int (pageCount : nat) (extractedText : str) :
  isScannedPDF pageCount extractedText =
  (0 <? pageCount) && (List.length extractedText <? 500 * pageCount).
Proof.
  unfold isScannedPDF, Qltb. destruct (Nat.ltb_spec 0 pageCount) as [Hp|Hp]; [|reflexivity].
  cbn [andb].
  set (a := inject_Z (Z.of_nat (List.length extractedText))).
  set (b := inject_Z (Z.of_nat pageCount)).
  assert (Hb : (0 < b)%Q) by (unfold b, Qlt; cbn; lia).
  destruct (Nat.ltb_spec (List.length extractedText) (500 * pageCount)) as [Hl|Hl].
  - assert (Hq : (a / b < 500)%Q).
    { apply Qlt_shift_div_r; [exact Hb|].
      unfold a, b, Qlt, Qmult; cbn [Qnum Qden inject_Z]. lia. }
    destruct (Qle_bool 500%Q (a / b)) eqn:E; [|reflexivity].
    apply Qle_bool_iff in E. exfalso. apply (Qlt_not_le _ _ Hq E).
  - assert (Hq : (500 <= a / b)%Q).
    { apply Qle_shift_div_l; [exact Hb|].
      unfold a, b, Qle, Qmult; cbn [Qnum Qden inject_Z]. lia. }
    apply Qle_bool_iff in Hq. rewrite Hq. reflexivity.
Qed.

Lemma ocr_stage_runOCR_irrelevant vision r1 r2 now url text pc c :
  isScannedPDF pc text && vision = false \/ 30 < pc \/
  (exists e, snd (getCachedPdfContent now url c) = Some e /\ isOCR e = true) ->
  ocr_stage vision r1 now url text pc c = ocr_stage vision r2 now url text pc c.
Proof.
  intros H. unfold ocr_stage.
  destruct (isScannedPDF pc text && vision) eqn:Es; [|reflexivity].
  destruct (getCachedPdfContent now url c) as [c1 cd] eqn:Eg.
  destruct H as [H|[H|[e [He Ho]]]]; [discriminate| |].
  - destruct (match cd with Some e => if isOCR e then Some e else None | None => None end);
      [reflexivity|].
    apply Nat.ltb_lt in H. rewrite H. reflexivity.
  - cbn [snd] in He. subst cd. rewrite Ho. reflexivity.
Qed.

(** X8: the OCR backend is never consulted for a document that is not
    routed to OCR, that has more than 30 pages, or whose OCR text is
    already cached: the handler's result is the same whatever the OCR
    backend would return. *)
Theorem extract_runOCR_irrelevant (vision : bool) (r1 r2 : nat -> option str)
    (now : Z) (url : key) (title : option str) (text : str) (pc : nat) (c : cache)
    (H : isScannedPDF pc text && vision = false \/ 30 < pc \/
         (exists e, snd (getCachedPdfContent now url c) = Some e /\ isOCR e = true)) :
  extract_pdf vision r1 now url title text pc c = extract_pdf vision r2 now url title text pc c.
Proof.
  unfold extract_pdf. rewrite (ocr_stage_runOCR_irrelevant vision r1 r2 now url text pc c H).
  reflexivity.
Qed.

Lemma extract_runOCR_irrelevant_witness :
  (isScannedPDF 31 [] && true = false \/ 30 < 31 \/
   (exists e, snd (getCachedPdfContent 0 (Some (lit "u")) []) = Some e /\ isOCR e = true)) /\
  extract_pdf true (fun _ => Some (lit "ocr text")) 0 (Some (lit "u")) None [] 31 [] =
  extract_pdf true (fun _ => None) 0 (Some (lit "u")) None [] 31 [].
Proof.
  assert (H : isScannedPDF 31 [] && true = false \/ 30 < 31 \/
   (exists e, snd (getCachedPdfContent 0 (Some (lit "u")) []) = Some e /\ isOCR e = true))
    by (right; left; lia).
  split; [exact H|].
  exact (extract_runOCR_irrelevant true _ _ 0 (Some (lit "u")) None [] 31 [] H).
Defined.

(** X9: an OCR failure is answered as if OCR were not configured: when
    the OCR run throws for a document of at most 30 pages with no cached
    OCR text, the response (the pdf2json text, its key and segmentation,
    the OCR flag [false]) is the one given without OCR. *)
Theorem extract_ocr_failure (vision : bool) (runOCR : nat -> option str)
    (now : Z) (url : key) (title : option str) (text : str) (pc : nat) (c : cache)
    (Hfail : runOCR pc = None) (Hpc : pc <= 30)
    (Hmiss : forall e, snd (getCachedPdfContent now url c) = Some e -> isOCR e = false) :
  snd (extract_pdf vision runOCR now url title text pc c) =
  snd (extract_pdf false runOCR now url title text pc c).
Proof.
  unfold extract_pdf, ocr_stage. rewrite andb_false_r.
  destruct (isScannedPDF pc text && vision); [|reflexivity].
  destruct (getCachedPdfContent now url c) as [c1 cd] eqn:Eg. cbn [snd] in Hmiss.
  assert (Hh : match cd with Some e => if isOCR e then Some e else None | None => None end = None).
  { destruct cd as [e|]; [|reflexivity]. rewrite (Hmiss e eq_refl). reflexivity. }
  rewrite Hh. replace (30 <? pc) with false by (symmetry; apply Nat.ltb_ge; exact Hpc).
  rewrite Hfail. destruct (SEGMENT_SIZE <? _)%N; reflexivity.
Qed.

Lemma extract_ocr_failure_witness :
  (fun _ : nat => @None str) 2 = None /\ 2 <= 30 /\
  (forall e, snd (getCachedPdfContent 0 (Some (lit "u")) []) = Some e -> isOCR e = false) /\
  snd (extract_pdf true (fun _ => None) 0 (Some (lit "u")) None (lit "ab") 2 []) =
  snd (extract_pdf false (fun _ => None) 0 (Some (lit "u")) None (lit "ab") 2 []).
Proof.
  assert (H1 : (fun _ : nat => @None str) 2 = None) by reflexivity.
  assert (H2 : 2 <= 30) by lia.
  assert (H3 : forall e, snd (getCachedPdfContent 0 (Some (lit "u")) []) = Some e ->
                         isOCR e = false) by (intros e He; discriminate).
  split; [exact H1|]. split; [exact H2|]. split; [exact H3|].
  exact (extract_ocr_failure true _ 0 (Some (lit "u")) None (lit "ab") 2 [] H1 H2 H3).
Defined.

End ExtractMore.

Module TextMore.
Import Text OCR Rank SplitSpec TextSpec RankFacts Csv.

Definition head_ws (s : str) : bool := match s with y :: _ => is_ws y | [] => false end.

Lemma ws_single_cons (x : ascii) (s : str) :
  ws_single (x :: s) = negb (is_ws x && head_ws s) && ws_single s.
Proof. destruct s as [|y s]; cbn [ws_single head_ws]; [rewrite andb_false_r|]; reflexivity. Qed.

Lemma starts_non_ws_head (s : str) : starts_non_ws s = negb (head_ws s).
Proof. destruct s; reflexivity. Qed.

Lemma replace_runs_shape (s : str) (b : bool) :
  ws_single (replace_runs is_ws b s) = true /\ ws_spaces (replace_runs is_ws b s) = true /\
  (b = true -> starts_non_ws (replace_runs is_ws b s) = true).
Proof.
  revert b. induction s as [|ch s IH]; intros b; cbn [replace_runs]; [repeat split|].
  destruct (is_ws ch) eqn:Ew.
  - destruct b.
    + exact (IH true).
    + destruct (IH true) as (H1 & H2 & H3). specialize (H3 eq_refl).
      rewrite starts_non_ws_head in H3. apply negb_true_iff in H3.
      split; [rewrite ws_single_cons, H3, andb_false_r, H1; reflexivity|].
      split; [cbn [ws_spaces forallb]; fold (ws_spaces (replace_runs is_ws true s));
              rewrite H2; reflexivity | discriminate].
  - destruct (IH false) as (H1 & H2 & _).
    split; [rewrite ws_single_cons, Ew, H1; reflexivity|].
    split; [cbn [ws_spaces forallb]; fold (ws_spaces (replace_runs is_ws false s));
            rewrite H2, Ew; reflexivity|].
    intros _. cbn. rewrite Ew. reflexivity.
Qed.

Lemma ws_single_app (a b : str) :
  ws_single (a ++ b) = true -> ws_single a = true /\ ws_single b = true.
Proof.
  induction a as [|x a IH]; cbn [app]; [split; [reflexivity | exact H] |].
  rewrite ws_single_cons. intros H. apply andb_true_iff in H. destruct H as [Hx H].
  destruct (IH H) as [Ha Hb]. split; [|exact Hb].
  rewrite ws_single_cons, Ha, andb_true_r.
  destruct a as [|y a]; [cbn; rewrite andb_false_r; reflexivity | exact Hx].
Qed.

Lemma ws_spaces_app (a b : str) :
  ws_spaces (a ++ b) = ws_spaces a && ws_spaces b.
Proof. unfold ws_spaces. apply forallb_app. Qed.

(** A property of whitespace that every infix inherits. *)
Definition ws_ok (s : str) : Prop := ws_single s = true /\ ws_spaces s = true.

Lemma ws_ok_infix (a u b : str) : ws_ok (a ++ u ++ b) -> ws_ok u.
Proof.
  intros [H1 H2]. apply ws_single_app in H1. destruct H1 as [_ H1].
  apply ws_single_app in H1. destruct H1 as [H1 _].
  rewrite !ws_spaces_app in H2. apply andb_true_iff in H2. destruct H2 as [_ H2].
  apply andb_true_iff in H2. split; [exact H1 | apply H2].
Qed.

Lemma drop_ws_suffix (s : str) :
  (exists a, s = a ++ drop_ws s) /\ starts_non_ws (drop_ws s) = true.
Proof.
  induction s as [|ch s [[a Ha] Hs]]; cbn [drop_ws]; [split; [exists []; reflexivity | reflexivity]|].
  destruct (is_ws ch) eqn:Ew.
  - split; [exists (ch :: a); cbn [app]; f_equal; exact Ha | exact Hs].
  - split; [exists []; reflexivity | cbn; rewrite Ew; reflexivity].
Qed.

Lemma trim_infix (s : str) :
  (exists a b, s = a ++ trim s ++ b) /\ trimmed (trim s) = true.
Proof.
  unfold trim. set (d := drop_ws s).
  destruct (drop_ws_suffix s) as [[a Ha] Hd]. fold d in Ha, Hd.
  destruct (drop_ws_suffix (rev d)) as [[a' Ha'] Hd'].
  assert (Hdd : d = rev (drop_ws (rev d)) ++ rev a').
  { rewrite <- rev_app_distr, <- Ha', rev_involutive. reflexivity. }
  split.
  - exists a, (rev a'). rewrite Ha at 1. rewrite Hdd at 1. reflexivity.
  - unfold trimmed. rewrite rev_involutive, Hd', andb_true_r.
    destruct (rev (drop_ws (rev d))) as [|x r] eqn:E; [reflexivity|].
    rewrite Hdd in Hd. cbn [app] in Hd. exact Hd.
Qed.

Lemma trim_ws_ok (s : str) : ws_ok s -> ws_ok (trim s).
Proof.
  intros H. destruct (proj1 (trim_infix s)) as [a [b E]].
  rewrite E in H. exact (ws_ok_infix _ _ _ H).
Qed.

Lemma trim_collapse_shape (s : str) : clean_shape (trim (collapse_ws s)) = true.
Proof.
  destruct (replace_runs_shape s false) as (H1 & H2 & _).
  destruct (trim_ws_ok (collapse_ws s) (conj H1 H2)) as [W1 W2].
  unfold clean_shape. rewrite W1, W2, (proj2 (trim_infix _)). reflexivity.
Qed.

Lemma ws_spaces_no_newline (s : str) :
  ws_spaces s = true -> Forall (fun c => is_newline c = false) s.
Proof.
  unfold ws_spaces. rewrite forallb_forall. intros H. apply Forall_forall.
  intros c Hc. specialize (H c Hc).
  destruct (is_newline c) eqn:En; [|reflexivity].
  unfold is_newline in En. apply Nat.eqb_eq in En.
  rewrite <- (ascii_nat_embedding c), En in H. discriminate.
Qed.

Lemma not_in_LF (s : str) : Forall (fun c => is_newline c = false) s -> ~ In LF s.
Proof.
  rewrite Forall_forall. intros H Hin. specialize (H LF Hin). discriminate.
Qed.

(** X11: the text the OCR run returns has no line breaks, no two adjacent
    whitespace characters, no whitespace other than plain spaces and no
    leading or trailing whitespace. *)
Theorem ocr_clean_text_shape (fullText : str) :
  clean_shape (clean_text fullText) = true /\ ~ In LF (clean_text fullText).
Proof.
  unfold clean_text. split; [apply trim_collapse_shape|].
  apply not_in_LF, ws_spaces_no_newline.
  pose proof (trim_collapse_shape (replace_runs is_newline false fullText)) as H.
  unfold clean_shape in H. apply andb_true_iff in H. destruct H as [H _].
  apply andb_true_iff in H. apply H.
Qed.

Lemma interleave_infix (u0 : str) (rest : list (str * str)) (u : str) :
  In u (u0 :: map snd rest) -> exists a b, interleave u0 rest = a ++ u ++ b.
Proof.
  revert u0. induction rest as [|[w v] rest IH]; intros u0 Hin; cbn [interleave].
  - destruct Hin as [<-|[]]. exists [], []. rewrite app_nil_r. reflexivity.
  - destruct Hin as [<-|Hin].
    + exists [], (w ++ interleave v rest). reflexivity.
    + destruct (IH v Hin) as [a [b E]]. exists (u0 ++ w ++ a), b.
      rewrite E, <- !app_assoc. reflexivity.
Qed.

Lemma split_sentences_infix (t : str) (u : str) :
  In u (split_sentences t) -> exists a b, t = a ++ u ++ b.
Proof.
  destruct (proj1 (split_aux_shape t) [] eq_refl) as (v & rest & Hsp & Heq & _).
  unfold split_sentences. cbn [last_punct rev app] in Hsp, Heq. rewrite Hsp, Heq.
  apply interleave_infix.
Qed.

Lemma sentences_of_shape (t : str) (q : str) :
  ws_ok t -> In q (sentences_of t) -> 20 < List.length q /\ clean_shape q = true.
Proof.
  intros Ht Hq. unfold sentences_of in Hq. apply filter_In in Hq.
  destruct Hq as [Hq Hl]. apply Nat.ltb_lt in Hl. split; [exact Hl|].
  apply in_map_iff in Hq. destruct Hq as [u [<- Hu]].
  destruct (split_sentences_infix t u Hu) as [a [b E]]. rewrite E in Ht.
  destruct (trim_ws_ok u (ws_ok_infix _ _ _ Ht)) as [W1 W2].
  unfold clean_shape. rewrite W1, W2, (proj2 (trim_infix u)). reflexivity.
Qed.

Lemma select_nonempty fuse_search topic ss qs :
  select fuse_search topic ss = CallModel qs -> qs <> [].
Proof.
  unfold select. cbv zeta. destruct (negb _ && negb _); [discriminate|].
  destruct (match filter relevant _ with [] => _ | l => l end); [discriminate|].
  destruct (quotes_of ss _); [discriminate|]. intros [= <-]. discriminate.
Qed.

Lemma candidates_core (fuse_search : list str -> str -> list fuse_result)
    (cheerio_body_text : str -> option str) (topic pageContent : str) (qs : list str) :
  find_quotes fuse_search cheerio_body_text topic pageContent = CallModel qs ->
  qs <> [] /\ Forall (fun q => 20 < List.length q /\ clean_shape q = true) qs.
Proof.
  unfold find_quotes. destruct (negb _ || negb _); [discriminate|].
  intros Hcall. split; [exact (select_nonempty _ _ _ _ Hcall)|].
  set (ss := page_sentences cheerio_body_text pageContent) in Hcall.
  destruct (select_call _ _ _ _ Hcall) as [filtered [_ ->]].
  rewrite quotes_of_map. apply Forall_forall. intros q Hq.
  apply in_map_iff in Hq. destruct Hq as [i [<- Hi]].
  apply filter_In in Hi. destruct Hi as [_ Hk]. apply kept_bounds in Hk.
  apply (sentences_of_shape (normalize cheerio_body_text (js_slice0 pageContent MAX_CHARS))).
  - unfold normalize. cbv zeta.
    pose proof (trim_collapse_shape
      (if includes (js_slice0 pageContent MAX_CHARS) (lit "<") &&
          includes (js_slice0 pageContent MAX_CHARS) (lit ">")
       then match cheerio_body_text (js_slice0 pageContent MAX_CHARS) with
            | Some t => t | None => js_slice0 pageContent MAX_CHARS end
       else js_slice0 pageContent MAX_CHARS)) as H.
    unfold clean_shape in H. apply andb_true_iff in H. destruct H as [H _].
    apply andb_true_iff in H. exact H.
  - apply nth_In. unfold ss, page_sentences in Hk. lia.
Qed.

(** X12: every candidate sentence the handler sends to the refinement
    model is longer than 20 characters, contains no line break, no two
    adjacent whitespace characters and no whitespace other than plain
    spaces, and has no leading or trailing whitespace; and there is at
    least one candidate. *)
Theorem candidates_clean (fuse_search : list str -> str -> list fuse_result)
    (cheerio_body_text : str -> option str) (topic pageContent : str) (qs : list str)
    (Hcall : find_quotes fuse_search cheerio_body_text topic pageContent = CallModel qs) :
  qs <> [] /\
  Forall (fun q => 20 < List.length q /\ clean_shape q = true /\ ~ In LF q) qs.
Proof.
  destruct (candidates_core _ _ _ _ _ Hcall) as [Hne Hall]. split; [exact Hne|].
  eapply Forall_impl; [|exact Hall]. intros q [Hl Hs]. split; [exact Hl|].
  split; [exact Hs|]. apply not_in_LF, ws_spaces_no_newline.
  unfold clean_shape in Hs. apply andb_true_iff in Hs. destruct Hs as [Hs _].
  apply andb_true_iff in Hs. apply Hs.
Qed.

Lemma candidates_clean_witness :
  let fz := fun (_ : list str) (_ : str) => @nil fuse_result in
  let ch := fun _ : str => @None str in
  let page := lit "Intro words here for padding only. Climate policy shapes our shared future. Cooking pasta needs boiling water first. Nothing else matters in this final line." in
  find_quotes fz ch (lit "climate policy") page =
    CallModel [lit "Intro words here for padding only.";
               lit "Climate policy shapes our shared future.";
               lit "Cooking pasta needs boiling water first."] /\
  ([lit "Intro words here for padding only.";
    lit "Climate policy shapes our shared future.";
    lit "Cooking pasta needs boiling water first."] <> [] /\
   Forall (fun q => 20 < List.length q /\ clean_shape q = true /\ ~ In LF q)
     [lit "Intro words here for padding only.";
      lit "Climate policy shapes our shared future.";
      lit "Cooking pasta needs boiling water first."]).
Proof.
  intros fz ch page.
  assert (H : find_quotes fz ch (lit "climate policy") page =
    CallModel [lit "Intro words here for padding only.";
               lit "Climate policy shapes our shared future.";
               lit "Cooking pasta needs boiling water first."])
    by (vm_compute; reflexivity).
  split; [exact H|].
  exact (candidates_clean fz ch (lit "climate policy") page _ H).
Defined.

Lemma split_runs_plain (p : ascii -> bool) (q rest cur : str) :
  Forall (fun c => p c = false) q ->
  split_runs p false cur (q ++ rest) = split_runs p false (rev q ++ cur) rest.
Proof.
  revert cur. induction q as [|c q IH]; intros cur Hq; [reflexivity|].
  inversion Hq as [|? ? Hc Hq']; subst. cbn [app split_runs]. rewrite Hc.
  rewrite IH by exact Hq'. cbn [rev]. rewrite <- app_assoc. reflexivity.
Qed.

Lemma join_split_runs (qs : list str) :
  qs <> [] ->
  Forall (fun q => q <> [] /\ Forall (fun c => is_newline c = false) q) qs ->
  split_runs is_newline false [] (join [LF; LF] qs) = qs.
Proof.
  induction qs as [|q qs IH]; [congruence|]. intros _ Hall.
  inversion Hall as [|? ? [Hqne Hq] Hall']; subst.
  destruct qs as [|q2 qs].
  - cbn [join]. rewrite <- (app_nil_r q) at 1. rewrite split_runs_plain by exact Hq.
    cbn [split_runs]. rewrite app_nil_r, rev_involutive. reflexivity.
  - change (join [LF; LF] (q :: q2 :: qs)) with (q ++ [LF; LF] ++ join [LF; LF] (q2 :: qs)).
    rewrite split_runs_plain by exact Hq. rewrite app_nil_r.
    cbn [app split_runs]. replace (is_newline LF) with true by reflexivity.
    rewrite rev_involutive. f_equal.
    pose proof (IH ltac:(discriminate) Hall') as IH'.
    inversion Hall' as [|? ? [Hq2ne Hq2] _]; subst.
    destruct q2 as [|c q2]; [congruence|].
    inversion Hq2 as [|? ? Hc _]; subst.
    assert (Ej : exists x, join [LF; LF] (@cons str (c :: q2) qs) = c :: x)
      by (destruct qs as [|q3 qs]; [exists q2 | exists (q2 ++ [LF; LF] ++ join [LF; LF] (q3 :: qs))];
          reflexivity).
    destruct Ej as [x Ej]. rewrite Ej in IH' |- *. cbn [split_runs] in IH' |- *.
    rewrite Hc in IH' |- *. exact IH'.
Qed.

(** X13: the candidates can be read back from the user message: the text
    block after [Text segments:], split at its line breaks (blank lines
    dropped), gives back exactly the candidate list, one candidate per
    line, in order. *)
Theorem prompt_block_roundtrip (fuse_search : list str -> str -> list fuse_result)
    (cheerio_body_text : str -> option str) (topic pageContent : str) (qs : list str)
    (Hcall : find_quotes fuse_search cheerio_body_text topic pageContent = CallModel qs) :
  split_runs is_newline false [] (join [LF; LF] qs) = qs.
Proof.
  destruct (candidates_core _ _ _ _ _ Hcall) as [Hne Hall].
  apply join_split_runs; [exact Hne|].
  eapply Forall_impl; [|exact Hall]. intros q [Hl Hs]. split.
  - intros ->. cbn in Hl. lia.
  - apply ws_spaces_no_newline.
    unfold clean_shape in Hs. apply andb_true_iff in Hs. destruct Hs as [Hs _].
    apply andb_true_iff in Hs. apply Hs.
Qed.

Lemma prompt_block_roundtrip_witness :
  let fz := fun (_ : list str) (_ : str) => @nil fuse_result in
  let ch := fun _ : str => @None str in
  let page := lit "Intro words here for padding only. Climate policy shapes our shared future. Cooking pasta needs boiling water first. Nothing else matters in this final line." in
  find_quotes fz ch (lit "climate policy") page =
    CallModel [lit "Intro words here for padding only.";
               lit "Climate policy shapes our shared future.";
               lit "Cooking pasta needs boiling water first."] /\
  split_runs is_newline false []
    (join [LF; LF] [lit "Intro words here for padding only.";
                    lit "Climate policy shapes our shared future.";
                    lit "Cooking pasta needs boiling water first."]) =
  [lit "Intro words here for padding only.";
   lit "Climate policy shapes our shared future.";
   lit "Cooking pasta needs boiling water first."].
Proof.
  intros fz ch page.
  assert (H : find_quotes fz ch (lit "climate policy") page =
    CallModel [lit "Intro words here for padding only.";
               lit "Climate policy shapes our shared future.";
               lit "Cooking pasta needs boiling water first."])
    by (vm_compute; reflexivity).
  split; [exact H|].
  exact (prompt_block_roundtrip fz ch (lit "climate policy") page _ H).
Defined.
End TextMore.

Module RefineMore.
Import Text Rank Csv CsvReader Refine CsvFacts.

Lemma drop_ws_all_ws (w x : str) : forallb is_ws w = true -> drop_ws (w ++ x) = drop_ws x.
Proof.
  induction w as [|c w IH]; [reflexivity|]. cbn [forallb app drop_ws].
  intros H. apply andb_true_iff in H. destruct H as [Hc Hw]. rewrite Hc. apply IH, Hw.
Qed.

Lemma drop_ws_before_tick (b y : str) : drop_ws (b ++ BT :: y) = drop_ws b ++ BT :: y.
Proof.
  induction b as [|c b IH]; [reflexivity|]. cbn [app drop_ws].
  destruct (is_ws c); [exact IH | reflexivity].
Qed.

Lemma is_prefix_app (p s : str) : is_prefix p (p ++ s) = true.
Proof. induction p as [|c p IH]; [reflexivity|]. cbn. rewrite Ascii.eqb_refl. exact IH. Qed.

Lemma tail_not_ws (l ws2 : str) (k : nat) :
  k <= List.length l + 2 -> forallb is_ws (skipn k (l ++ FENCE ++ ws2)) = false.
Proof.
  intros Hk. replace (l ++ FENCE ++ ws2) with ((l ++ [BT; BT]) ++ BT :: ws2)
    by (rewrite <- app_assoc; reflexivity).
  rewrite skipn_app. replace (k - List.length (l ++ [BT; BT])) with 0
    by (rewrite length_app; cbn [List.length]; lia).
  cbn [skipn]. rewrite forallb_app. cbn [forallb].
  replace (is_ws BT) with false by reflexivity. rewrite !andb_false_r. reflexivity.
Qed.

Lemma remove_close_fence_end (d ws2 : str) :
  forallb is_ws ws2 = true -> remove_close_fence (d ++ FENCE ++ ws2) = d.
Proof.
  intros Hw. induction d as [|c d IH].
  - change ([] ++ FENCE ++ ws2) with (BT :: BT :: BT :: ws2). cbn [remove_close_fence].
    replace (is_prefix FENCE (BT :: BT :: BT :: ws2)) with true
      by (symmetry; exact (is_prefix_app FENCE ws2)).
    cbn [skipn]. rewrite Hw. reflexivity.
  - cbn [app remove_close_fence].
    replace (forallb is_ws (skipn 3 (c :: d ++ FENCE ++ ws2))) with false
      by (symmetry; apply (tail_not_ws (c :: d) ws2 3); cbn [List.length]; lia).
    rewrite andb_false_r. f_equal. exact IH.
Qed.

Lemma includes_prefix (s p : str) : is_prefix p s = true -> includes s p = true.
Proof. destruct s as [|c s]; cbn [includes]; [auto | intros ->; reflexivity]. Qed.

Lemma remove_open_at_start (tag s : str) :
  is_prefix (FENCE ++ tag) s = true ->
  remove_open_fence tag s = drop_ws (skipn (3 + List.length tag) s).
Proof. destruct s as [|c s]; [discriminate | cbn [remove_open_fence]; intros ->; reflexivity]. Qed.

Definition body_open (body ws2 : str) : str := drop_ws body ++ FENCE ++ ws2.

(** X14: a reply that starts with a code fence loses exactly the fence:
    for a reply made of an opening fence tagged [json] (or untagged, when
    the reply does not contain a [json]-tagged fence), whitespace, a body,
    a closing fence and trailing whitespace, the text handed to
    [JSON.parse] is the body without its leading whitespace, even when the
    body itself contains backticks.  (Whitespace before the opening fence
    is not removed.) *)
Theorem strip_fences_wrapped (ws1 body ws2 : str)
    (H1 : forallb is_ws ws1 = true) (H2 : forallb is_ws ws2 = true) :
  strip_fences (FENCE ++ lit "json" ++ ws1 ++ body ++ FENCE ++ ws2) = drop_ws body /\
  (includes (FENCE ++ ws1 ++ body ++ FENCE ++ ws2) (FENCE ++ lit "json") = false ->
   strip_fences (FENCE ++ ws1 ++ body ++ FENCE ++ ws2) = drop_ws body).
Proof.
  assert (Hopen : forall tag, remove_open_fence tag (FENCE ++ tag ++ ws1 ++ body ++ FENCE ++ ws2)
                              = body_open body ws2).
  { intros tag. rewrite app_assoc, remove_open_at_start by apply is_prefix_app.
    replace (3 + List.length tag) with (List.length (FENCE ++ tag))
      by (rewrite length_app; reflexivity).
    rewrite skipn_app, Nat.sub_diag, skipn_all. cbn [skipn app].
    rewrite drop_ws_all_ws by exact H1. unfold FENCE at 1. cbn [app].
    rewrite drop_ws_before_tick. reflexivity. }
  split.
  - unfold strip_fences.
    rewrite includes_prefix by (rewrite app_assoc; apply is_prefix_app).
    rewrite Hopen. unfold body_open. apply remove_close_fence_end, H2.
  - intros Hj. unfold strip_fences. rewrite Hj.
    rewrite includes_prefix by apply is_prefix_app.
    rewrite <- (app_nil_l (ws1 ++ body ++ FENCE ++ ws2)) at 1.
    rewrite Hopen. unfold body_open. apply remove_close_fence_end, H2.
Qed.

Lemma strip_fences_wrapped_witness :
  forallb is_ws (lit "  ") = true /\ forallb is_ws [LF] = true /\
  (strip_fences (FENCE ++ lit "json" ++ lit "  " ++ lit "[1,2]" ++ FENCE ++ [LF]) =
     drop_ws (lit "[1,2]") /\
   (includes (FENCE ++ lit "  " ++ lit "[1,2]" ++ FENCE ++ [LF]) (FENCE ++ lit "json") = false ->
    strip_fences (FENCE ++ lit "  " ++ lit "[1,2]" ++ FENCE ++ [LF]) = drop_ws (lit "[1,2]"))).
Proof.
  assert (H1 : forallb is_ws (lit "  ") = true) by reflexivity.
  assert (H2 : forallb is_ws [LF] = true) by reflexivity.
  split; [exact H1|]. split; [exact H2|].
  exact (strip_fences_wrapped (lit "  ") (lit "[1,2]") [LF] H1 H2).
Defined.

Lemma map_snd_combine_seq {A : Type} (l : list A) (k : nat) :
  map snd (combine (seq k (List.length l)) l) = l.
Proof.
  revert k. induction l as [|x l IH]; intros k; [reflexivity|].
  cbn [List.length seq combine map snd]. f_equal. apply IH.
Qed.

Lemma map_items_null (index : nat) (items : list json) :
  In JNull items -> map_items index items = None.
Proof.
  revert index. induction items as [|x items IH]; intros index Hin; [destruct Hin|].
  cbn [map_items]. destruct Hin as [->|Hin]; [reflexivity|].
  destruct (get_prop x (lit "quote")), (get_prop x (lit "relevance")); try reflexivity.
  rewrite (IH (S index) Hin). reflexivity.
Qed.

(** X15: a reply the handler cannot use falls back to the candidates: when
    the reply has no string content, does not parse, parses to something
    other than an array, or is an array with a [null] item, the answer is
    the candidate list itself, in order, one quote per candidate. *)
Theorem analyze_fallback (json_parse : str -> option json) (rawContent : option str)
    (relevantQuotes : list str)
    (Hbad : match rawContent with
            | None => True
            | Some raw => match json_parse (strip_fences raw) with
                          | Some (JArr items) => In JNull items
                          | _ => True
                          end
            end) :
  analyze json_parse rawContent relevantQuotes = fallback_quotes relevantQuotes /\
  map fst (analyze json_parse rawContent relevantQuotes) = map JStr relevantQuotes.
Proof.
  assert (E : analyze json_parse rawContent relevantQuotes = fallback_quotes relevantQuotes).
  { unfold analyze. destruct rawContent as [raw|]; [|reflexivity].
    destruct (json_parse (strip_fences raw)) as [[| | | | items |]|]; try reflexivity.
    rewrite (map_items_null 0 items Hbad). reflexivity. }
  split; [exact E|]. rewrite E. unfold fallback_quotes. rewrite map_map. cbn [fst].
  transitivity (map JStr (map snd (combine (seq 0 (List.length relevantQuotes)) relevantQuotes)));
    [rewrite map_map; reflexivity | rewrite map_snd_combine_seq; reflexivity].
Qed.

Lemma analyze_fallback_witness :
  let jp := fun _ : str => Some (JArr [JStr (lit "a"); JNull]) in
  (match Some (lit "[x, null]") with
   | None => True
   | Some raw => match jp (strip_fences raw) with
                 | Some (JArr items) => In JNull items
                 | _ => True
                 end
   end) /\
  analyze jp (Some (lit "[x, null]")) [lit "one"; lit "two"] = fallback_quotes [lit "one"; lit "two"] /\
  map fst (analyze jp (Some (lit "[x, null]")) [lit "one"; lit "two"]) =
    map JStr [lit "one"; lit "two"].
Proof.
  intros jp.
  assert (H : match Some (lit "[x, null]") with
              | None => True
              | Some raw => match jp (strip_fences raw) with
                            | Some (JArr items) => In JNull items
                            | _ => True
                            end
              end) by (cbn; right; left; reflexivity).
  split; [exact H|].
  exact (analyze_fallback jp (Some (lit "[x, null]")) [lit "one"; lit "two"] H).
Defined.

Lemma map_items_ok (index : nat) (items : list json) :
  ~ In JNull items ->
  exists l, map_items index items = Some l /\ List.length l = List.length items /\
    (forall k s, nth_error items k = Some (JStr s) ->
       nth_error l k = Some (JStr s, JStr (lit "AI-analyzed quote #" ++ to_dec (S (index + k))))).
Proof.
  revert index. induction items as [|x items IH]; intros index Hnn.
  - exists []. split; [reflexivity|]. split; [reflexivity|].
    intros [|k] s H; discriminate.
  - assert (Hx : x <> JNull) by (intros ->; apply Hnn; left; reflexivity).
    assert (Hr : ~ In JNull items) by (intros H; apply Hnn; right; exact H).
    destruct (IH (S index) Hr) as [l [El [Hl Hs]]].
    assert (Gq : exists q, get_prop x (lit "quote") = Some q)
      by (destruct x; try congruence; eexists; reflexivity).
    assert (Gr : exists r, get_prop x (lit "relevance") = Some r)
      by (destruct x; try congruence; eexists; reflexivity).
    destruct Gq as [q Gq], Gr as [r Gr].
    cbn [map_items]. rewrite Gq, Gr, El.
    eexists. split; [reflexivity|]. split; [cbn [List.length]; rewrite Hl; reflexivity|].
    intros [|k] s Hk.
    + cbn [nth_error] in Hk |- *. injection Hk as ->.
      cbn in Gq, Gr. injection Gq as <-. injection Gr as <-.
      rewrite Nat.add_0_r. reflexivity.
    + cbn [nth_error] in Hk |- *. rewrite (Hs k s Hk).
      rewrite Nat.add_succ_r. reflexivity.
Qed.

(** X16: a reply that parses to an array without [null] items gives one
    quote per item, in order, whatever the candidates were; an item that
    is a plain string is taken as the quote itself, with the relevance
    [AI-analyzed quote #k] for its 1-based position [k]. *)
Theorem analyze_parsed (json_parse : str -> option json) (raw : str)
    (relevantQuotes : list str) (items : list json)
    (Hp : json_parse (strip_fences raw) = Some (JArr items))
    (Hnn : ~ In JNull items) :
  List.length (analyze json_parse (Some raw) relevantQuotes) = List.length items /\
  (forall rq, analyze json_parse (Some raw) rq = analyze json_parse (Some raw) relevantQuotes) /\
  (forall k s, nth_error items k = Some (JStr s) ->
     nth_error (analyze json_parse (Some raw) relevantQuotes) k =
       Some (JStr s, JStr (lit "AI-analyzed quote #" ++ to_dec (S k)))).
Proof.
  destruct (map_items_ok 0 items Hnn) as [l [El [Hl Hs]]].
  assert (E : forall rq, analyze json_parse (Some raw) rq = l)
    by (intros rq; unfold analyze; rewrite Hp, El; reflexivity).
  split; [rewrite E; exact Hl|]. split; [intros rq; rewrite !E; reflexivity|].
  intros k s Hk. rewrite E. exact (Hs k s Hk).
Qed.

Lemma analyze_parsed_witness :
  let jp := fun _ : str => Some (JArr [JStr (lit "first"); JStr (lit "second")]) in
  jp (strip_fences (lit "[...]")) = Some (JArr [JStr (lit "first"); JStr (lit "second")]) /\
  ~ In JNull [JStr (lit "first"); JStr (lit "second")] /\
  (List.length (analyze jp (Some (lit "[...]")) [lit "c"]) =
     List.length [JStr (lit "first"); JStr (lit "second")] /\
   (forall rq, analyze jp (Some (lit "[...]")) rq = analyze jp (Some (lit "[...]")) [lit "c"]) /\
   (forall k s, nth_error [JStr (lit "first"); JStr (lit "second")] k = Some (JStr s) ->
      nth_error (analyze jp (Some (lit "[...]")) [lit "c"]) k =
        Some (JStr s, JStr (lit "AI-analyzed quote #" ++ to_dec (S k))))).
Proof.
  intros jp.
  assert (H1 : jp (strip_fences (lit "[...]")) =
               Some (JArr [JStr (lit "first"); JStr (lit "second")])) by reflexivity.
  assert (H2 : ~ In JNull [JStr (lit "first"); JStr (lit "second")])
    by (cbn; intuition discriminate).
  split; [exact H1|]. split; [exact H2|].
  exact (analyze_parsed jp (lit "[...]") [lit "c"] _ H1 H2).
Defined.

Lemma select_not_bad fuse_search topic ss : select fuse_search topic ss <> BadRequest.
Proof.
  unfold select. cbv zeta. destruct (negb _ && negb _); [discriminate|].
  destruct (match filter relevant _ with [] => _ | l => l end); [discriminate|].
  destruct (quotes_of ss _); discriminate.
Qed.

(** X17: every valid request adds exactly one record to the request log,
    whatever happens next (no quotes, a failed model call, or quotes),
    and is never answered as a bad request; an invalid request (empty
    topic or page content) leaves the log as it is. *)
Theorem handler_logs_once (fuse_search : list str -> str -> list fuse_result)
    (cheerio_body_text : str -> option str) (json_parse : str -> option json)
    (chat : bool -> str -> option (option str))
    (iso topic pageContent : str) (pageUrl pageTitle : option str) (isOCR fromPdf : bool)
    (logFile : str) (rs : list (list str))
    (Hlog : csv_parse logFile = Some rs)
    (Hiso : ~ In DQ iso /\ ~ In ","%char iso /\ ~ In LF iso /\ ~ In CR iso) :
  let r := find_quotes_handler fuse_search cheerio_body_text json_parse chat
             iso topic pageContent pageUrl pageTitle isOCR fromPdf logFile in
  (str_truthy topic && str_truthy pageContent = true ->
     csv_parse (fst r) = Some (rs ++ [[iso; topic; or_default pageTitle (lit "Current Page");
                                       or_default pageUrl (lit "Unknown URL")]]) /\
     snd r <> FQBadRequest) /\
  (str_truthy topic && str_truthy pageContent = false -> r = (logFile, FQBadRequest)).
Proof.
  intros r. unfold r, find_quotes_handler.
  destruct (str_truthy topic) eqn:Et, (str_truthy pageContent) eqn:Ep; cbn [andb negb orb];
    [|split; [discriminate | reflexivity]..].
  split; [|discriminate]. intros _.
  assert (Hf : find_quotes fuse_search cheerio_body_text topic pageContent <> BadRequest).
  { unfold find_quotes. rewrite Et, Ep. apply select_not_bad. }
  pose proof (append_row_parse logFile iso (Some topic) pageTitle pageUrl rs Hlog Hiso) as Hp.
  destruct (find_quotes fuse_search cheerio_body_text topic pageContent); [congruence| |].
  - split; [exact Hp | discriminate].
  - destruct (chat isOCR _); (split; [exact Hp | discriminate]).
Qed.

Lemma handler_logs_once_witness :
  let fz := fun (_ : list str) (_ : str) => @nil fuse_result in
  let ch := fun _ : str => @None str in
  let jp := fun _ : str => @None json in
  let chat := fun (_ : bool) (_ : str) => @None (option str) in
  let iso := lit "2026-10-14T09:30:00.000Z" in
  csv_parse LOG_HEADER = Some [[lit "timestamp"; lit "topic"; lit "page_title"; lit "page_url"]] /\
  (~ In DQ iso /\ ~ In ","%char iso /\ ~ In LF iso /\ ~ In CR iso) /\
  let r := find_quotes_handler fz ch jp chat iso (lit "war") (lit "War and peace.") None None
             false false LOG_HEADER in
  (str_truthy (lit "war") && str_truthy (lit "War and peace.") = true ->
     csv_parse (fst r) = Some ([[lit "timestamp"; lit "topic"; lit "page_title"; lit "page_url"]]
                               ++ [[iso; lit "war"; or_default None (lit "Current Page");
                                    or_default None (lit "Unknown URL")]]) /\
     snd r <> FQBadRequest) /\
  (str_truthy (lit "war") && str_truthy (lit "War and peace.") = false ->
     r = (LOG_HEADER, FQBadRequest)).
Proof.
  intros fz ch jp chat iso.
  assert (H1 : csv_parse LOG_HEADER =
               Some [[lit "timestamp"; lit "topic"; lit "page_title"; lit "page_url"]])
    by (vm_compute; reflexivity).
  assert (H2 : ~ In DQ iso /\ ~ In ","%char iso /\ ~ In LF iso /\ ~ In CR iso)
    by (vm_compute; intuition discriminate).
  split; [exact H1|]. split; [exact H2|].
  exact (handler_logs_once fz ch jp chat iso (lit "war") (lit "War and peace.") None None
           false false LOG_HEADER _ H1 H2).
Defined.
End RefineMore.

Module RankMore.
Import Text Rank.

Lemma split_runs_pieces (p : ascii -> bool) (s : str) :
  forall b cur, Forall (fun c => p c = false) cur ->
  Forall (fun w => Forall (fun c => p c = false) w) (split_runs p b cur s).
Proof.
  induction s as [|ch s IH]; intros b cur Hc; cbn [split_runs].
  - constructor; [apply Forall_rev, Hc | constructor].
  - destruct (p ch) eqn:Ep.
    + destruct b; [apply IH, Hc|]. constructor; [apply Forall_rev, Hc|]. apply IH. constructor.
    + apply IH. constructor; assumption.
Qed.

Lemma fold_hits_le (l : list str) (f : str -> nat) (acc : nat) :
  (forall k, f k <= 1) -> fold_left (fun a k => a + f k) l acc <= acc + List.length l.
Proof.
  revert acc. induction l as [|k l IH]; intros acc Hf; cbn [fold_left List.length]; [lia|].
  specialize (IH (acc + f k) Hf). specialize (Hf k). lia.
Qed.

(** X18: every topic keyword is at least 3 characters long and made of
    lowercase ASCII letters and digits only, and a sentence's keyword hit
    count never exceeds the number of keywords (each keyword counts at
    most once, however often it occurs). *)
Theorem keywords_shape (topic : str) :
  Forall (fun w => 3 <= List.length w /\ forallb is_lower_alnum w = true) (keywords topic) /\
  (forall s, keyword_hits topic s <= List.length (keywords topic)).
Proof.
  split.
  - unfold keywords.
    pose proof (split_runs_pieces (fun ch => negb (is_lower_alnum ch)) (toLowerCase topic)
                  false [] (Forall_nil _)) as H.
    apply Forall_forall. intros w Hw. apply filter_In in Hw. destruct Hw as [Hw Hl].
    rewrite Forall_forall in H. specialize (H w Hw).
    apply andb_true_iff in Hl. destruct Hl as [_ Hl]. apply Nat.ltb_lt in Hl.
    split; [exact Hl|]. apply forallb_forall. intros c Hc.
    rewrite Forall_forall in H. specialize (H c Hc). apply negb_false_iff in H. exact H.
  - intros s. unfold keyword_hits.
    apply (fold_hits_le (keywords topic) (fun k => if includes (toLowerCase s) k then 1 else 0) 0).
    intros k. destruct (includes _ _); lia.
Qed.

Lemma get_set_in (k : str) (v : Q) (m : JSMap.t (K := str) (V := Q)) (s : str) (w : Q) :
  JSMap.get str_eqb s (JSMap.set str_eqb k v m) = Some w ->
  w = v \/ JSMap.get str_eqb s m = Some w.
Proof.
  induction m as [|[k' v'] m IH]; cbn [JSMap.set JSMap.get].
  - destruct (str_eqb s k); [intros [= <-]; left; reflexivity | discriminate].
  - destruct (str_eqb k k') eqn:E; cbn [JSMap.get].
    + unfold str_eqb in E. destruct (list_eq_dec ascii_dec k k') as [<-|]; [|discriminate].
      destruct (str_eqb s k); [intros [= <-]; left; reflexivity | intros H; right; exact H].
    + destruct (str_eqb s k'); [intros H; right; exact H | exact IH].
Qed.

Lemma unit_qmin (sc : Q) : (0 <= sc)%Q -> (0 <= 1 - Qmin' 1 sc <= 1)%Q.
Proof.
  intros H. unfold Qmin'. destruct (Qle_bool 1 sc) eqn:E.
  - split; lra.
  - assert (~ (1 <= sc)%Q) by (intros X; apply Qle_bool_iff in X; congruence). split; lra.
Qed.

Lemma unit_qmax (a b : Q) : (0 <= a <= 1)%Q -> (0 <= b <= 1)%Q -> (0 <= Qmax' a b <= 1)%Q.
Proof. intros Ha Hb. unfold Qmax'. destruct (Qle_bool b a); assumption. Qed.

(** X19: when Fuse.js scores are non-negative (or absent), every fuzzy
    weight the handler derives is between 0 and 1, and so is the [fuzzy]
    component of every scored sentence. *)
Theorem fuzzy_weights_unit (searchResults : list fuse_result)
    (Hsc : Forall (fun r => match snd r with Some sc => (0 <= sc)%Q | None => True end)
             searchResults) :
  (forall s w, JSMap.get str_eqb s (fuzzy_map searchResults) = Some w -> (0 <= w <= 1)%Q) /\
  (forall topic sentences e, In e (score_all topic sentences searchResults) ->
     (0 <= fuzzy e <= 1)%Q).
Proof.
  assert (Hm : forall s w, JSMap.get str_eqb s (fuzzy_map searchResults) = Some w ->
                           (0 <= w <= 1)%Q).
  { unfold fuzzy_map.
    assert (Hinv : forall (l : list fuse_result) (m : JSMap.t (K := str) (V := Q)),
      Forall (fun r => match snd r with Some sc => (0 <= sc)%Q | None => True end) l ->
      (forall s w, JSMap.get str_eqb s m = Some w -> (0 <= w <= 1)%Q) ->
      forall s w, JSMap.get str_eqb s
        (fold_left (fun m r =>
           let weight := match snd r with Some sc => (1 - Qmin' 1 sc)%Q | None => 0%Q end in
           let old := match JSMap.get str_eqb (fst r) m with Some w => w | None => 0%Q end in
           JSMap.set str_eqb (fst r) (Qmax' old weight) m) l m) = Some w -> (0 <= w <= 1)%Q).
    { induction l as [|r l IH]; intros m Hl Hmm; cbn [fold_left]; [exact Hmm|].
      inversion Hl as [|? ? Hr Hl']; subst. apply IH; [exact Hl'|].
      intros s w Hg. cbv zeta in Hg. apply get_set_in in Hg. destruct Hg as [->|Hg]; [|exact (Hmm s w Hg)].
      apply unit_qmax.
      - destruct (JSMap.get str_eqb (fst r) m) as [w0|] eqn:E0; [exact (Hmm _ _ E0)|].
        split; [apply Qle_refl | discriminate].
      - destruct (snd r) as [sc|]; [apply unit_qmin, Hr | split; [apply Qle_refl | discriminate]]. }
    apply Hinv; [exact Hsc|]. intros s w H; discriminate. }
  split; [exact Hm|].
  intros topic sentences e He. unfold score_all in He. apply in_map_iff in He.
  destruct He as [[i s] [<- _]]. cbn [fst snd score_sentence fuzzy].
  destruct (JSMap.get str_eqb s (fuzzy_map searchResults)) as [w|] eqn:Ew;
    [exact (Hm s w Ew) | split; [apply Qle_refl | discriminate]].
Qed.

Lemma fuzzy_weights_unit_witness :
  Forall (fun r => match snd r with Some sc => (0 <= sc)%Q | None => True end)
    [(lit "a", Some (1 # 4)%Q); (lit "a", Some (1 # 2)%Q); (lit "b", None)] /\
  ((forall s w, JSMap.get str_eqb s
       (fuzzy_map [(lit "a", Some (1 # 4)%Q); (lit "a", Some (1 # 2)%Q); (lit "b", None)]) =
       Some w -> (0 <= w <= 1)%Q) /\
   (forall topic sentences e,
      In e (score_all topic sentences
              [(lit "a", Some (1 # 4)%Q); (lit "a", Some (1 # 2)%Q); (lit "b", None)]) ->
      (0 <= fuzzy e <= 1)%Q)).
Proof.
  assert (H : Forall (fun r => match snd r with Some sc => (0 <= sc)%Q | None => True end)
    [(lit "a", Some (1 # 4)%Q); (lit "a", Some (1 # 2)%Q); (lit "b", None)]).
  { repeat constructor; cbn; discriminate. }
  split; [exact H|]. exact (fuzzy_weights_unit _ H).
Defined.
End RankMore.

Module OCRMore.
Import Text OCR OCRFacts.

Lemma settle_keeps_none (completion : list nat) (ps slots slots' : list (option chunk_result))
    (j : nat) :
  settle completion ps slots = Some slots' -> nth j ps None = None -> j < List.length slots ->
  nth j slots None = None -> List.length slots' = List.length slots /\ nth j slots' None = None.
Proof.
  revert slots. induction completion as [|j0 rest IH]; intros slots Hs Hp Hj Hn; cbn [settle] in Hs.
  - injection Hs as <-. split; [reflexivity | exact Hn].
  - destruct (nth j0 ps None) as [r|] eqn:E0; [|discriminate].
    assert (Hne : (j =? j0) = false) by (apply Nat.eqb_neq; intros ->; congruence).
    destruct (IH (list_set slots j0 (Some r)) Hs Hp) as [Hl Hn'].
    + rewrite list_set_length. exact Hj.
    + rewrite nth_list_set, Hne by exact Hj. exact Hn.
    + split; [rewrite Hl, list_set_length; reflexivity | exact Hn'].
Qed.

Lemma promise_all_rejected (completion : list nat) (ps : list (option chunk_result)) :
  In None ps -> promise_all completion ps = None.
Proof.
  intros Hin. unfold promise_all.
  destruct (settle completion ps (repeat None (List.length ps))) as [slots|] eqn:Es; [|reflexivity].
  destruct (In_nth ps None None Hin) as [j [Hj Hnj]].
  destruct (settle_keeps_none completion ps _ slots j Es Hnj) as [Hl Hn].
  - rewrite repeat_length. exact Hj.
  - apply nth_repeat.
  - rewrite repeat_length in Hl.
    destruct (forallb _ slots) eqn:Ef; [|reflexivity].
    rewrite forallb_forall in Ef.
    assert (Hin' : In None slots) by (rewrite <- Hn; apply nth_In; lia).
    specialize (Ef None Hin'). discriminate.
Qed.

Lemma in_none_promises (f : nat -> list nat -> option chunk_result) (cs : list (list nat))
    (g : list nat) (k : nat) :
  In g cs -> (forall i, f i g = None) ->
  In None (map (fun p => f (fst p) (snd p)) (combine (seq k (List.length cs)) cs)).
Proof.
  revert k. induction cs as [|c cs IH]; intros k Hg Hf; [destruct Hg|].
  cbn [List.length seq combine map fst snd]. destruct Hg as [<-|Hg].
  - left. apply Hf.
  - right. apply IH; assumption.
Qed.

(** X20: a single rejected page-group request makes the whole OCR run
    fail, whatever order the requests settle in: no text is returned,
    even if every other group was recognised. *)
Theorem ocr_one_rejection_fails (batchAnnotate : list nat -> vision_reply)
    (visionConfigured : bool) (totalPages : nat) (completion : list nat) (g : list nat)
    (Hg : In g (chunks totalPages)) (Hrej : batchAnnotate g = VisionRejected) :
  snd (extractPDFTextOCR batchAnnotate visionConfigured totalPages completion) = None.
Proof.
  unfold extractPDFTextOCR. destruct (negb visionConfigured); [reflexivity|].
  rewrite promise_all_rejected; [reflexivity|].
  apply (in_none_promises (run_chunk batchAnnotate) _ g 0 Hg).
  intros i. unfold run_chunk. rewrite Hrej. reflexivity.
Qed.

Lemma ocr_one_rejection_fails_witness :
  let ba := fun pr : list nat =>
              if list_eq_dec Nat.eq_dec pr [6; 7] then VisionRejected
              else VisionResponse (Some [Some (lit "page")]) in
  In [6; 7] (chunks 7) /\ ba [6; 7] = VisionRejected /\
  snd (extractPDFTextOCR ba true 7 [1; 0]) = None.
Proof.
  intros ba.
  assert (H1 : In [6; 7] (chunks 7)) by (vm_compute; right; left; reflexivity).
  assert (H2 : ba [6; 7] = VisionRejected) by reflexivity.
  split; [exact H1|]. split; [exact H2|].
  exact (ocr_one_rejection_fails ba true 7 [1; 0] [6; 7] H1 H2).
Defined.
End OCRMore.

